(** * MSP codec of the AM32 configurator: [src/communication/msp.ts]

    A shallow embedding of the class [Msp]: the two checksum algorithms,
    the V1 and V2 frame encoders, [send], the correlated send
    [sendWithPromise], and the incremental parser [processResponse].

    Conventions of the embedding.
    - A JS number that holds a byte, a counter or a command code is a [Z].
    - A [Uint8Array] is a [list Z]; a well-formed one holds bytes only
      ([Forall JS.u8]).  A store into a typed array wraps modulo 256
      ([to_u8]); a store past the end is dropped and a load past the end
      gives [undefined], which the bitwise operators read as 0.
    - Array indices and loop counters that start at 0 are [nat].
    - The bitwise operators of JS work on 32-bit integers; their
      operands here are bytes, command codes and lengths, on which they
      agree with [Z.lxor], [Z.land], [Z.shiftl] and [Z.shiftr]. *)

From stdpp Require Import base numbers list.
From Stdlib Require Import Ascii ZArith Lia.

Open Scope Z_scope.

(** ** The JavaScript operations the class relies on *)

Module JS.

(** A value is a byte when it is in the range of a [Uint8Array] element. *)
Definition u8 (x : Z) : Prop := 0 <= x < 256.

(** Conversion applied on every store into a [Uint8Array]. *)
Definition to_u8 (x : Z) : Z := x mod 256.

(** [a[i]]: [None] stands for [undefined]. *)
Definition get (a : list Z) (i : nat) : option Z := a !! i.

(** [a[i] = v] on a [Uint8Array]: out of range stores are ignored. *)
Definition set (a : list Z) (i : nat) (v : Z) : list Z := <[i := to_u8 v]> a.

(** Operand conversion of [^], [&]: [undefined] becomes 0. *)
Definition num (o : option Z) : Z :=
  match o with Some x => x | None => 0 end.

(** [new Uint8Array(new ArrayBuffer(n))]: [n] zero bytes. *)
Definition alloc (n : nat) : list Z := replicate n 0.

(** JS truthiness of a number. *)
Definition truthy (x : Z) : bool := negb (x =? 0).

End JS.

(** Modelled from the spec: the helper [ascii] is imported from outside
    [msp.ts]; it gives the character code of a one-character string
    (the comments next to its uses give 36, 77, 88 and 60). *)
Definition ascii (c : Ascii.ascii) : Z := Z.of_N (N_of_ascii c).

(** ** Checksum engine *)

(** The inner [for] loop of [crc8DvbS2Data]: [n] rounds on [crc]. *)
Fixpoint crc8_rounds (n : nat) (crc : Z) : Z :=
  match n with
  | O => crc
  | S n' =>
      crc8_rounds n'
        (if JS.truthy (Z.land crc 0x80)
         then Z.lxor (Z.land (Z.shiftl crc 1) 0xFF) 0xD5
         else Z.land (Z.shiftl crc 1) 0xFF)
  end.

(** The outer loop: [i] is the running index, [n] the number of
    iterations left. *)
Fixpoint crc8_loop (data : list Z) (i : nat) (n : nat) (crc : Z) : Z :=
  match n with
  | O => crc
  | S n' =>
      let ch := JS.get data i in
      let crc := Z.lxor crc (JS.num ch) in
      crc8_loop data (S i) n' (crc8_rounds 8 crc)
  end.

(** [crc8DvbS2Data(data, start, end)]: the loop [for (i = start; i < end;
    i += 1)] runs [end - start] times, and not at all when
    [end <= start]. *)
Definition crc8DvbS2Data (data : list Z) (start end_ : nat) : Z :=
  crc8_loop data start (end_ - start)%nat 0.

(** The reference definition of CRC8-DVB-S2, after the specification:
    polynomial 0xD5, most significant bit first, initial value 0, no
    reflection. *)
Module Reference.

Definition round (crc : Z) : Z :=
  if Z.testbit crc 7
  then Z.lxor (Z.land (Z.shiftl crc 1) 0xFF) 0xD5
  else Z.land (Z.shiftl crc 1) 0xFF.

Definition update (crc byte : Z) : Z :=
  Nat.iter 8 round (Z.lxor crc byte).

Definition crc8DvbS2 (bytes : list Z) : Z := fold_left update bytes 0.

Definition xorChecksum (bytes : list Z) : Z := fold_left Z.lxor bytes 0.

(** The bytes of [data] in the half-open range from [start] to [end_]. *)
Definition range (data : list Z) (start end_ : nat) : list Z :=
  take (end_ - start) (drop start data).

End Reference.

(** The digits "123456789", the check input of the CRC catalogues. *)
Definition check_input : list Z := [49; 50; 51; 52; 53; 54; 55; 56; 57].

(** ** Frame encoder *)

(** The copy loop of [encodeV1]: [bufView[i + 5] = data[i]; checksum ^=
    bufView[i + 5]], for [n] more iterations from index [i]. *)
Fixpoint encodeV1_loop (data : list Z) (i n : nat) (bufView : list Z)
    (checksum : Z) : list Z * Z :=
  match n with
  | O => (bufView, checksum)
  | S n' =>
      let bufView := JS.set bufView (i + 5) (JS.num (JS.get data i)) in
      let checksum := Z.lxor checksum (JS.num (JS.get bufView (i + 5))) in
      encodeV1_loop data (S i) n' bufView checksum
  end.

(** [encodeV1(command, data)]; the result is the content of [bufferOut]. *)
Definition encodeV1 (command : Z) (data : list Z) : list Z :=
  let size := (6 + length data)%nat in
  let bufView := JS.alloc size in
  let bufView := JS.set bufView 0 (ascii "$") in
  let bufView := JS.set bufView 1 (ascii "M") in
  let bufView := JS.set bufView 2 (ascii "<") in
  let bufView := JS.set bufView 3 (Z.of_nat (length data)) in
  let bufView := JS.set bufView 4 command in
  if (0 <? length data)%nat then
    let checksum :=
      Z.lxor (JS.num (JS.get bufView 3)) (JS.num (JS.get bufView 4)) in
    let '(bufView, checksum) :=
      encodeV1_loop data 0 (length data) bufView checksum in
    JS.set bufView (5 + length data) checksum
  else
    JS.set bufView 5
      (Z.lxor (JS.num (JS.get bufView 3)) (JS.num (JS.get bufView 4))).

(** The copy loop of [encodeV2]: [bufView[8 + i] = data[i]]. *)
Fixpoint encodeV2_loop (data : list Z) (i n : nat) (bufView : list Z)
    : list Z :=
  match n with
  | O => bufView
  | S n' =>
      encodeV2_loop data (S i) n'
        (JS.set bufView (8 + i) (JS.num (JS.get data i)))
  end.

(** [encodeV2(command, data)]. *)
Definition encodeV2 (command : Z) (data : list Z) : list Z :=
  let dataLength := length data in
  let size := (9 + dataLength)%nat in
  let bufView := JS.alloc size in
  let bufView := JS.set bufView 0 (ascii "$") in
  let bufView := JS.set bufView 1 (ascii "X") in
  let bufView := JS.set bufView 2 (ascii "<") in
  let bufView := JS.set bufView 3 0 in
  let bufView := JS.set bufView 4 (Z.land command 0xFF) in
  let bufView := JS.set bufView 5 (Z.land (Z.shiftr command 8) 0xFF) in
  let bufView := JS.set bufView 6 (Z.land (Z.of_nat dataLength) 0xFF) in
  let bufView :=
    JS.set bufView 7 (Z.land (Z.shiftr (Z.of_nat dataLength) 8) 0xFF) in
  let bufView := encodeV2_loop data 0 dataLength bufView in
  JS.set bufView (size - 1) (crc8DvbS2Data bufView 3 (size - 1)).

(** The five header bytes of a V2 frame that the checksum covers. *)
Definition v2_covered_header (command : Z) (dataLength : nat) : list Z :=
  [0; JS.to_u8 (Z.land command 0xFF);
   JS.to_u8 (Z.land (Z.shiftr command 8) 0xFF);
   JS.to_u8 (Z.land (Z.of_nat dataLength) 0xFF);
   JS.to_u8 (Z.land (Z.shiftr (Z.of_nat dataLength) 8) 0xFF)].

(** How a call of an encoder ends.  Neither body has a [throw] or a
    length check, and stores into a typed array never fail, so every call
    returns its buffer. *)
Inductive Outcome :=
  | Returned (bufferOut : list Z)
  | Rejected_oversized.

Definition encodeV1_outcome (command : Z) (data : list Z) : Outcome :=
  Returned (encodeV1 command data).

(** What the specification asks of the V1 encoder: every payload longer
    than 255 bytes is rejected. *)
Definition encodeV1_rejects_oversized : Prop :=
  forall (command : Z) (data : list Z),
    255 < Z.of_nat (length data) ->
    encodeV1_outcome command data = Rejected_oversized.

(** ** The codec object *)

(** A decoded frame as handed to [CommandQueue.addCommand]. *)
Record McuCommand := mkMcuCommand {
  commandName : option Z;
  data : list Z
}.

(** The text of an error logged through [logError]. *)
Inductive LogMsg :=
  | CommandFailed
  | UnknownDirection (char : Z)
  | ReadFailed.

(** The calls the codec makes on its collaborators, in program order.
    [this.log] and [console.log] are diagnostics and left out. *)
Inductive Effect :=
  | SerialWrite (bufferOut : list Z)
  | LogError (msg : LogMsg)
  | AddCommand (c : McuCommand).

(** The fields of an instance of [Msp].  [messageBufferUint8View] is
    either a view of [messageBuffer] (after stage 3) or a second empty
    array next to an empty [messageBuffer] (initially and after stage 6),
    so one list stands for both.  [command] is [None] for [null]. *)
Record Msp := mkMsp {
  commandCount : Z;
  state : Z;
  messageBuffer : list Z;
  messageChecksum : Z;
  messageLengthExpected : Z;
  messageLengthReceived : nat;
  command : option Z
}.

(** A new instance, as the field initialisers leave it. *)
Definition Msp_new : Msp :=
  {| commandCount := 0; state := 0; messageBuffer := [];
     messageChecksum := 0; messageLengthExpected := 0;
     messageLengthReceived := 0; command := None |}.

Definition with_state (s : Z) (m : Msp) : Msp :=
  {| commandCount := commandCount m; state := s;
     messageBuffer := messageBuffer m;
     messageChecksum := messageChecksum m;
     messageLengthExpected := messageLengthExpected m;
     messageLengthReceived := messageLengthReceived m;
     command := command m |}.

Definition with_commandCount (c : Z) (m : Msp) : Msp :=
  {| commandCount := c; state := state m;
     messageBuffer := messageBuffer m;
     messageChecksum := messageChecksum m;
     messageLengthExpected := messageLengthExpected m;
     messageLengthReceived := messageLengthReceived m;
     command := command m |}.

(** The seven assignments at the end of stage 6. *)
Definition clear_scratch (m : Msp) : Msp :=
  {| commandCount := commandCount m; state := 0; messageBuffer := [];
     messageChecksum := 0; messageLengthExpected := 0;
     messageLengthReceived := 0; command := None |}.

(** *** Sending *)

Section Send.

(** What the transport answers to a write. *)
Context {WriteResult : Type}.

(** [send(command, data)].  [written] is the outcome of [await
    Serial.write(bufferOut)]: [Some r] for the result [r], [None] when
    it throws.  The function returns the result, or [null] ([None])
    after logging the failure. *)
Definition send (m : Msp) (command : Z) (data : option (list Z))
    (written : option WriteResult)
    : Msp * list Effect * option WriteResult :=
  let bufferOut :=
    if command <=? 254
    then encodeV1 command (default [] data)
    else encodeV2 command (default [] data) in
  let m := with_commandCount (commandCount m + 1) m in
  match written with
  | Some result => (m, [SerialWrite bufferOut], Some result)
  | None => (m, [SerialWrite bufferOut; LogError CommandFailed], None)
  end.

End Send.

(** *** Receiving *)

(** The body of the [for] loop of [processResponse]: one [switch] on
    [this.state] for the byte [char]. *)
Definition processChar (m : Msp) (char : Z) : Msp * list Effect :=
  match state m with
  | 0 =>
      if char =? ascii "$" then (with_state (state m + 1) m, [])
      else (m, [])
  | 1 =>
      if char =? ascii "M" then (with_state (state m + 1) m, [])
      else (with_state 0 m, [])
  | 2 =>
      if (char =? ascii "<") || (char =? ascii ">")
      then (with_state (state m + 1) m, [])
      else (with_state 0 m, [LogError (UnknownDirection char)])
  | 3 =>
      ({| commandCount := commandCount m; state := state m + 1;
          messageBuffer := JS.alloc (Z.to_nat char);
          messageChecksum := char;
          messageLengthExpected := char;
          messageLengthReceived := messageLengthReceived m;
          command := command m |}, [])
  | 4 =>
      ({| commandCount := commandCount m;
          state := if 0 <? messageLengthExpected m
                   then state m + 1 else state m + 2;
          messageBuffer := messageBuffer m;
          messageChecksum := Z.lxor (messageChecksum m) char;
          messageLengthExpected := messageLengthExpected m;
          messageLengthReceived := messageLengthReceived m;
          command := Some char |}, [])
  | 5 =>
      let received := S (messageLengthReceived m) in
      ({| commandCount := commandCount m;
          state := if messageLengthExpected m <=? Z.of_nat received
                   then state m + 1 else state m;
          messageBuffer :=
            JS.set (messageBuffer m) (messageLengthReceived m) char;
          messageChecksum := Z.lxor (messageChecksum m) char;
          messageLengthExpected := messageLengthExpected m;
          messageLengthReceived := received;
          command := command m |}, [])
  | 6 =>
      if messageChecksum m =? char
      then (clear_scratch (with_commandCount (commandCount m - 1) m),
            [AddCommand {| commandName := command m;
                           data := messageBuffer m |}])
      else (clear_scratch m, [])
  | _ => (m, [])
  end.

(** [processResponse(data)]: the loop over the bytes of one chunk. *)
Fixpoint processResponse (m : Msp) (data : list Z) : Msp * list Effect :=
  match data with
  | [] => (m, [])
  | char :: rest =>
      let '(m1, e1) := processChar m char in
      let '(m2, e2) := processResponse m1 rest in
      (m2, e1 ++ e2)
  end.

(** What [Serial.read] resolves to or fails with. *)
Inductive ReadResult :=
  | ReadValue (value : list Z)
  | ReadDone
  | ReadError.

(** [read()]: a chunk from the transport goes to the parser; a failed
    read is logged. *)
Definition read (m : Msp) (readerData : ReadResult) : Msp * list Effect :=
  match readerData with
  | ReadValue value => processResponse m value
  | ReadDone => (m, [])
  | ReadError => (m, [LogError ReadFailed])
  end.

(** Feeding chunks one at a time to the same instance: one call of
    [read] for each chunk. *)
Fixpoint feed (m : Msp) (chunks : list (list Z)) : Msp * list Effect :=
  match chunks with
  | [] => (m, [])
  | chunk :: rest =>
      let '(m1, e1) := read m (ReadValue chunk) in
      let '(m2, e2) := feed m1 rest in
      (m2, e1 ++ e2)
  end.

(** The frames among the effects, in order. *)
Definition frames (es : list Effect) : list McuCommand :=
  omap (fun e => match e with AddCommand c => Some c | _ => None end) es.

(** The errors among the effects, in order. *)
Definition errors (es : list Effect) : list LogMsg :=
  omap (fun e => match e with LogError msg => Some msg | _ => None end) es.

(** A response frame as the device sends it: the request frame of
    [encodeV1] with the direction byte replaced. *)
Definition as_response (frame : list Z) : list Z :=
  <[2%nat := ascii ">"]> frame.

(** ** Correlated sends: promises, timers and the command queue *)

(** How a promise of [sendWithPromise] ends: [resolve(response)] or
    [reject(new Error('MSP timeout reached'))]. *)
Inductive Settlement :=
  | Fulfilled (response : list Z)
  | TimeoutError.

(** The closure that [sendWithPromise] registers as callback:
    [(response) => { clearTimeout(timeout); resolve(response); }], with
    the timer and the promise it captures. *)
Record Callback := mkCallback {
  cb_timeout : nat;
  cb_promise : nat
}.

(** The codec together with the runtime it runs on.  Time is logical
    and counted in milliseconds.
    - [promises]: the promises created so far, [None] while pending;
    - [timers]: the timers created so far, [Some (deadline, p)] while
      armed to reject promise [p], [None] once fired or cleared;
    - [queue]: the callbacks registered in the command queue, oldest
      first, each with its command code;
    - [wire]: the buffers handed to [Serial.write];
    - [settled]: every settlement that took effect, with its time. *)
Record World := mkWorld {
  codec : Msp;
  clock : Z;
  promises : list (option Settlement);
  timers : list (option (Z * nat));
  queue : list (Z * Callback);
  wire : list (list Z);
  errorLog : list LogMsg;
  settled : list (Z * nat * Settlement)
}.

Definition World_new : World :=
  {| codec := Msp_new; clock := 0; promises := []; timers := [];
     queue := []; wire := []; errorLog := []; settled := [] |}.

Definition with_codec (m : Msp) (w : World) : World :=
  {| codec := m; clock := clock w; promises := promises w;
     timers := timers w; queue := queue w; wire := wire w;
     errorLog := errorLog w; settled := settled w |}.

Definition with_clock (t : Z) (w : World) : World :=
  {| codec := codec w; clock := t; promises := promises w;
     timers := timers w; queue := queue w; wire := wire w;
     errorLog := errorLog w; settled := settled w |}.

Definition with_promises (ps : list (option Settlement)) (w : World)
    : World :=
  {| codec := codec w; clock := clock w; promises := ps;
     timers := timers w; queue := queue w; wire := wire w;
     errorLog := errorLog w; settled := settled w |}.

Definition with_timers (ts : list (option (Z * nat))) (w : World) : World :=
  {| codec := codec w; clock := clock w; promises := promises w;
     timers := ts; queue := queue w; wire := wire w;
     errorLog := errorLog w; settled := settled w |}.

Definition with_queue (q : list (Z * Callback)) (w : World) : World :=
  {| codec := codec w; clock := clock w; promises := promises w;
     timers := timers w; queue := q; wire := wire w;
     errorLog := errorLog w; settled := settled w |}.

(** [resolve] and [reject] of a promise: the first call settles it, every
    later call is ignored. *)
Definition settle (p : nat) (s : Settlement) (w : World) : World :=
  match promises w !! p with
  | Some None =>
      {| codec := codec w; clock := clock w;
         promises := <[p := Some s]> (promises w);
         timers := timers w; queue := queue w; wire := wire w;
         errorLog := errorLog w;
         settled := settled w ++ [(clock w, p, s)] |}
  | _ => w
  end.

(** [setTimeout(() => reject(...), delay)]: the new timer is the last
    one. *)
Definition setTimeout (p : nat) (delay : Z) (w : World) : World :=
  with_timers (timers w ++ [Some (clock w + delay, p)]) w.

(** [clearTimeout(t)]. *)
Definition clearTimeout (t : nat) (w : World) : World :=
  with_timers (<[t := None]> (timers w)) w.

(** A call of the registered callback with a response. *)
Definition invoke (cb : Callback) (response : list Z) (w : World) : World :=
  settle (cb_promise cb) (Fulfilled response)
    (clearTimeout (cb_timeout cb) w).

(** Modelled from the spec: the class [CommandQueue] is imported from
    [commands.queue], outside [msp.ts].  Its waiters are one-shot, keyed
    by command code, and served oldest first for each code:
    [addCallback] registers a waiter behind the others; [addCommand]
    hands the payload of a frame to the oldest waiter registered for
    the command of the frame and removes it, and does nothing when
    there is none.  The timer of a request lives in [sendWithPromise],
    whose timeout handler only rejects the promise and makes no call on
    the queue, so a registration leaves the queue through [addCommand]
    only. *)
Definition addCallback (command : Z) (callback : Callback) (w : World)
    : World :=
  with_queue (queue w ++ [(command, callback)]) w.

(** Modelled from the spec: the oldest waiter of [q] registered for the
    command [name], and [q] without it. *)
Fixpoint pop_waiter (name : option Z) (q : list (Z * Callback))
    : option (Callback * list (Z * Callback)) :=
  match q with
  | [] => None
  | (c, cb) :: q' =>
      if decide (name = Some c) then Some (cb, q')
      else match pop_waiter name q' with
           | Some (cb', q'') => Some (cb', (c, cb) :: q'')
           | None => None
           end
  end.

(** Modelled from the spec: [CommandQueue.addCommand], which settles the
    oldest waiter for the command of the frame with its payload and
    removes it. *)
Definition addCommand (frame : McuCommand) (w : World) : World :=
  match pop_waiter (commandName frame) (queue w) with
  | Some (cb, q') => invoke cb (data frame) (with_queue q' w)
  | None => w
  end.

(** The calls of the codec, carried out on the world. *)
Definition perform (e : Effect) (w : World) : World :=
  match e with
  | SerialWrite bufferOut =>
      {| codec := codec w; clock := clock w; promises := promises w;
         timers := timers w; queue := queue w;
         wire := wire w ++ [bufferOut];
         errorLog := errorLog w; settled := settled w |}
  | LogError msg =>
      {| codec := codec w; clock := clock w; promises := promises w;
         timers := timers w; queue := queue w; wire := wire w;
         errorLog := errorLog w ++ [msg]; settled := settled w |}
  | AddCommand c => addCommand c w
  end.

Definition perform_all (es : list Effect) (w : World) : World :=
  fold_left (fun w e => perform e w) es w.

(** [sendWithCallback(command, callback, data)]: the callback is
    registered, then the frame is sent. *)
Definition sendWithCallback (w : World) (command : Z) (callback : Callback)
    (data : option (list Z)) (written : option unit) : World :=
  let w := addCallback command callback w in
  let '(m, effects, _) := send (codec w) command data written in
  perform_all effects (with_codec m w).

(** [sendWithPromise(command, data)]: a new promise, a timer of 200 ms
    that rejects it, and a callback that clears the timer and resolves
    it.  The result is the new world and the promise. *)
Definition sendWithPromise (w : World) (command : Z)
    (data : option (list Z)) (written : option unit) : World * nat :=
  let p := length (promises w) in
  let w := with_promises (promises w ++ [None]) w in
  let timeout := length (timers w) in
  let w := setTimeout p 200 w in
  let w :=
    sendWithCallback w command
      {| cb_timeout := timeout; cb_promise := p |} data written in
  (w, p).

(** A timer that is due fires once: it is disarmed and its promise is
    rejected. *)
Definition fire (t : nat) (w : World) : World :=
  match timers w !! t with
  | Some (Some (deadline, p)) =>
      if deadline <=? clock w
      then settle p TimeoutError (clearTimeout t w)
      else w
  | _ => w
  end.

(** One millisecond passes and the timers that are due fire: a timer
    fires in the millisecond in which the clock reaches its deadline. *)
Definition tick (w : World) : World :=
  let w := with_clock (clock w + 1) w in
  fold_left (fun w t => fire t w) (seq 0 (length (timers w))) w.

(** [read()] on the world: the chunk goes through the parser and the
    calls of the parser are carried out. *)
Definition receive (w : World) (chunk : list Z) : World :=
  let '(m, effects) := read (codec w) (ReadValue chunk) in
  perform_all effects (with_codec m w).

(** What happens between a correlated send and its settlement. *)
Inductive Event :=
  | Tick
  | Deliver (frame : McuCommand)
  | Request (command : Z) (data : option (list Z)) (written : option unit).

Definition step (w : World) (e : Event) : World :=
  match e with
  | Tick => tick w
  | Deliver frame => addCommand frame w
  | Request command data written =>
      (sendWithPromise w command data written).1
  end.

Definition run (w : World) (events : list Event) : World :=
  fold_left step events w.

(** No frame for [command] is delivered. *)
Definition quiet (command : Z) (events : list Event) : Prop :=
  Forall (fun e => match e with
                   | Deliver frame => commandName frame <> Some command
                   | _ => True
                   end) events.

(** The settlements of promise [p] in the record. *)
Definition settlements (p : nat) (w : World) : list (Z * nat * Settlement) :=
  filter (fun e => e.1.2 = p) (settled w).

(** Every promise and timer that a world refers to has been created. *)
Record well_formed (w : World) : Prop := {
  wf_timers : forall t d p,
    timers w !! t = Some (Some (d, p)) -> (p < length (promises w))%nat;
  wf_queue : forall c cb,
    (c, cb) ∈ queue w ->
    (cb_promise cb < length (promises w))%nat
    /\ (cb_timeout cb < length (timers w))%nat;
  wf_settled : forall e,
    e ∈ settled w -> (e.1.2 < length (promises w))%nat
}.

(** The oldest waiter registered for a command, if any. *)
Definition first_waiter (command : Z) (w : World) : option Callback :=
  fst <$> pop_waiter (Some command) (queue w).

(** The request with promise [p], timer [t], deadline [d] and command
    [cmd] is open: the promise is pending and has no settlement on
    record, the timer is armed, and only this timer and the callback of
    this request refer to the promise. *)
Record armed (p t : nat) (d cmd : Z) (w : World) : Prop := {
  ar_promise : promises w !! p = Some None;
  ar_timer : timers w !! t = Some (Some (d, p));
  ar_settled : settlements p w = [];
  ar_timers : forall t' d' p',
    timers w !! t' = Some (Some (d', p')) -> p' = p -> t' = t;
  ar_queue : forall c cb,
    (c, cb) ∈ queue w ->
    cb_promise cb = p \/ cb_timeout cb = t ->
    cb = mkCallback t p /\ c = cmd
}.

(** An open request whose timer is not yet due. *)
Definition pending (p t : nat) (d cmd : Z) (w : World) : Prop :=
  armed p t d cmd w /\ clock w < d.

(** Promise [p] was settled with [s] at time [at_], once. *)
Record settled_once (p : nat) (s : Settlement) (at_ : Z) (w : World)
    : Prop := {
  dn_promise : promises w !! p = Some (Some s);
  dn_settled : settlements p w = [(at_, p, s)]
}.


(** ** Command catalog *)

(** The names of the enum [MSP_COMMANDS]. *)
Inductive MSP_COMMANDS :=
  | MSP_API_VERSION | MSP_FC_VARIANT | MSP_FC_VERSION | MSP_BOARD_INFO
  | MSP_BUILD_INFO | MSP_FEATURE_CONFIG | MSP_MOTOR_3D_CONFIG
  | MSP_BATTERY_STATE | MSP_SET_MOTOR | MSP_SET_PASSTHROUGH
  | MSP_IDENT | MSP_STATUS | MSP_MOTOR | MSP_3D | MSP_MOTOR_CONFIG
  | MSP_SET_3D | MSP_UID | MSP2_SEND_DSHOT_COMMAND.

(** The number that the enum gives to each name. *)
Definition code (c : MSP_COMMANDS) : Z :=
  match c with
  | MSP_API_VERSION => 1
  | MSP_FC_VARIANT => 2
  | MSP_FC_VERSION => 3
  | MSP_BOARD_INFO => 4
  | MSP_BUILD_INFO => 5
  | MSP_FEATURE_CONFIG => 36
  | MSP_MOTOR_3D_CONFIG => 124
  | MSP_BATTERY_STATE => 130
  | MSP_SET_MOTOR => 214
  | MSP_SET_PASSTHROUGH => 245
  | MSP_IDENT => 100
  | MSP_STATUS => 101
  | MSP_MOTOR => 104
  | MSP_3D => 124
  | MSP_MOTOR_CONFIG => 131
  | MSP_SET_3D => 217
  | MSP_UID => 160
  | MSP2_SEND_DSHOT_COMMAND => 0x3003
  end.

(** ** Streams, invariants and inbound events *)

(** Successive calls of [read], one for each result of [Serial.read]. *)
Fixpoint reads (m : Msp) (results : list ReadResult) : Msp * list Effect :=
  match results with
  | [] => (m, [])
  | readerData :: rest =>
      let '(m1, e1) := read m readerData in
      let '(m2, e2) := reads m1 rest in
      (m2, e1 ++ e2)
  end.

(** The bytes that a list of read results delivers. *)
Definition delivered (results : list ReadResult) : list Z :=
  concat (omap (fun r => match r with
                         | ReadValue value => Some value
                         | _ => None
                         end) results).

(** The state of a parser that started as a new instance and was fed
    bytes: the stage is one of the seven, no payload byte is counted
    before stage 5, and from stage 4 on the payload buffer has the
    announced length and holds bytes. *)
Definition parser_ok (m : Msp) : Prop :=
  let sized :=
    JS.u8 (messageLengthExpected m)
    /\ length (messageBuffer m) = Z.to_nat (messageLengthExpected m)
    /\ Forall JS.u8 (messageBuffer m) in
  let named := exists c, command m = Some c /\ JS.u8 c in
  match state m with
  | 0 | 1 | 2 | 3 => messageLengthReceived m = 0%nat
  | 4 => messageLengthReceived m = 0%nat /\ sized
  | 5 =>
      sized /\ named
      /\ Z.of_nat (messageLengthReceived m) < messageLengthExpected m
  | 6 => sized /\ named
  | _ => False
  end.

(** A frame with a one-byte command and a payload of at most 255
    bytes. *)
Definition frame_ok (f : McuCommand) : Prop :=
  (exists c, commandName f = Some c /\ JS.u8 c)
  /\ Z.of_nat (length (data f)) <= 255
  /\ Forall JS.u8 (data f).

(** What reaches a running codec from outside: time passing and chunks
    of bytes from the transport. *)
Inductive Inbound :=
  | Elapse
  | Chunk (bytes : list Z).

Definition arrive (w : World) (i : Inbound) : World :=
  match i with
  | Elapse => tick w
  | Chunk bytes => receive w bytes
  end.

Definition drive (w : World) (inbound : list Inbound) : World :=
  fold_left arrive inbound w.

(** All chunks hold bytes. *)
Definition byte_chunks (inbound : list Inbound) : Prop :=
  Forall (fun i => match i with
                   | Chunk bytes => Forall JS.u8 bytes
                   | Elapse => True
                   end) inbound.

(** A stream of responses, each behind some bytes of line noise: an
    item holds the noise, the command and the payload. *)
Definition response_stream (items : list (list Z * Z * list Z)) : list Z :=
  concat ((fun item => item.1.1 ++ as_response (encodeV1 item.1.2 item.2))
            <$> items).

(** The frame that an item of a response stream carries. *)
Definition frame_of (item : list Z * Z * list Z) : McuCommand :=
  {| commandName := Some item.1.2; data := item.2 |}.

(** An item whose noise has no '$' and whose response is a V1 frame. *)
Definition item_ok (item : list Z * Z * list Z) : Prop :=
  (ascii "$" ∉ item.1.1)
  /\ 0 <= item.1.2 <= 255
  /\ Z.of_nat (length item.2) <= 255
  /\ Forall JS.u8 item.2.

(** Case analysis on the stage number: the seven stages of the [switch]
    and every other number. *)
Ltac stage_cases st :=
  let p := fresh "p" in
  destruct st as [|p|p];
  [ | try destruct p as [p|p|]; try destruct p as [p|p|];
      try destruct p as [p|p|] | ].

(** The increments of the stage number, evaluated. *)
Ltac stage_arith :=
  change (0 + 1) with 1; change (1 + 1) with 2; change (2 + 1) with 3;
  change (3 + 1) with 4; change (4 + 1) with 5; change (4 + 2) with 6;
  change (5 + 1) with 6.

(** ** Properties of the checksum engine *)

Lemma truthy_bit7 (crc : Z) : JS.truthy (Z.land crc 0x80) = Z.testbit crc 7.
Proof.
  unfold JS.truthy.
  change 0x80 with (2 ^ 7).
  destruct (Z.testbit crc 7) eqn:Hb.
  - apply negb_true_iff, Z.eqb_neq. intros H0.
    assert (Ht : Z.testbit (Z.land crc (2 ^ 7)) 7 = true).
    { rewrite Z.land_spec, Hb, Z.pow2_bits_eqb by lia. reflexivity. }
    rewrite H0 in Ht. discriminate.
  - apply negb_false_iff, Z.eqb_eq. apply Z.bits_inj'. intros n Hn.
    rewrite Z.land_spec, Z.bits_0, Z.pow2_bits_eqb by lia.
    destruct (Z.eqb_spec 7 n) as [<-|Hne].
    + rewrite Hb. reflexivity.
    + apply andb_false_r.
Qed.

Lemma crc8_rounds_iter (n : nat) (crc : Z) :
  crc8_rounds n crc = Nat.iter n Reference.round crc.
Proof.
  revert crc. induction n as [|n IH]; intros crc; [reflexivity|].
  cbn [crc8_rounds]. rewrite IH, truthy_bit7.
  change (Reference.round ?x) with (Reference.round x).
  rewrite Nat.iter_succ_r. reflexivity.
Qed.

Lemma crc8_loop_fold (data : list Z) (n i : nat) (crc : Z) :
  (i + n <= length data)%nat ->
  crc8_loop data i n crc
  = fold_left Reference.update (take n (drop i data)) crc.
Proof.
  revert i crc. induction n as [|n IH]; intros i crc Hlen; [reflexivity|].
  destruct (lookup_lt_is_Some_2 data i) as [x Hx]; [lia|].
  cbn [crc8_loop]. unfold JS.get. rewrite Hx. cbn [JS.num].
  rewrite IH by lia. rewrite (drop_S _ _ _ Hx). cbn [take fold_left].
  unfold Reference.update at 2. rewrite crc8_rounds_iter. reflexivity.
Qed.

(** ** Bytes and exclusive or *)

Lemma to_u8_small (x : Z) : JS.u8 x -> JS.to_u8 x = x.
Proof. unfold JS.u8, JS.to_u8. intros H. apply Z.mod_small. exact H. Qed.

Lemma to_u8_u8 (x : Z) : JS.u8 (JS.to_u8 x).
Proof. unfold JS.u8, JS.to_u8. apply Z.mod_pos_bound. lia. Qed.

Lemma to_u8_lxor (a b : Z) :
  JS.to_u8 (Z.lxor a b) = Z.lxor (JS.to_u8 a) (JS.to_u8 b).
Proof.
  unfold JS.to_u8. change 256 with (2 ^ 8).
  apply Z.bits_inj'. intros n Hn.
  rewrite Z.lxor_spec.
  destruct (Z.lt_ge_cases n 8) as [Hlt|Hge].
  - rewrite !Z.mod_pow2_bits_low by lia. apply Z.lxor_spec.
  - rewrite !Z.mod_pow2_bits_high by lia. reflexivity.
Qed.

Lemma lxor_u8 (a b : Z) : JS.u8 a -> JS.u8 b -> JS.u8 (Z.lxor a b).
Proof.
  intros Ha Hb.
  rewrite <- (to_u8_small a Ha), <- (to_u8_small b Hb), <- to_u8_lxor.
  apply to_u8_u8.
Qed.

Lemma fmap_to_u8_small (l : list Z) : Forall JS.u8 l -> JS.to_u8 <$> l = l.
Proof.
  induction 1 as [|x l Hx _ IH]; [reflexivity|].
  cbn. rewrite IH, to_u8_small by assumption. reflexivity.
Qed.

Lemma fold_lxor_u8 (l : list Z) (c : Z) :
  Forall JS.u8 l -> JS.u8 c -> JS.u8 (fold_left Z.lxor l c).
Proof.
  intros Hl. revert c. induction Hl as [|x l Hx _ IH]; intros c Hc; [exact Hc|].
  cbn. apply IH, lxor_u8; assumption.
Qed.

Lemma land_255 (x : Z) : Z.land x 0xFF = x mod 256.
Proof.
  change 0xFF with (Z.ones 8). rewrite Z.land_ones by lia. reflexivity.
Qed.

Lemma round_u8 (crc : Z) : JS.u8 (Reference.round crc).
Proof.
  unfold Reference.round.
  assert (H : JS.u8 (Z.land (Z.shiftl crc 1) 0xFF)).
  { rewrite land_255. apply to_u8_u8. }
  destruct (Z.testbit crc 7); [|exact H].
  apply lxor_u8; [exact H|]. unfold JS.u8. lia.
Qed.

Lemma update_u8 (crc byte : Z) : JS.u8 (Reference.update crc byte).
Proof. unfold Reference.update. cbn [Nat.iter]. apply round_u8. Qed.

Lemma crc8DvbS2_u8 (bytes : list Z) : JS.u8 (Reference.crc8DvbS2 bytes).
Proof.
  unfold Reference.crc8DvbS2.
  induction bytes as [|b bytes IH] using rev_ind.
  - unfold JS.u8. cbn. lia.
  - rewrite fold_left_app. cbn [fold_left]. apply update_u8.
Qed.

(** ** Closed forms of the encoders *)

Lemma ascii_codes :
  ascii "$" = 36 /\ ascii "M" = 77 /\ ascii "X" = 88 /\
  ascii "<" = 60 /\ ascii ">" = 62.
Proof. repeat split. Qed.

Lemma set_middle (pre post : list Z) (y v : Z) (i : nat) :
  length pre = i ->
  JS.set (pre ++ y :: post) i v = pre ++ JS.to_u8 v :: post.
Proof.
  intros <-. unfold JS.set.
  rewrite insert_app_r_alt by lia. rewrite Nat.sub_diag. reflexivity.
Qed.

Lemma get_middle (pre post : list Z) (y : Z) (i : nat) :
  length pre = i -> JS.get (pre ++ y :: post) i = Some y.
Proof. intros <-. unfold JS.get. apply list_lookup_middle. reflexivity. Qed.

Lemma encodeV1_loop_spec (d2 : list Z) :
  forall (d1 pre mid post : list Z) (c : Z),
    length pre = (length d1 + 5)%nat ->
    length mid = length d2 ->
    encodeV1_loop (d1 ++ d2) (length d1) (length d2) (pre ++ mid ++ post) c
    = (pre ++ (JS.to_u8 <$> d2) ++ post,
       fold_left Z.lxor (JS.to_u8 <$> d2) c).
Proof.
  induction d2 as [|x d2 IH]; intros d1 pre mid post c Hpre Hmid.
  - destruct mid; [reflexivity|discriminate].
  - destruct mid as [|y mid]; [discriminate|]. injection Hmid as Hmid.
    cbn [length encodeV1_loop].
    rewrite (get_middle d1 d2 x) by reflexivity. cbn [JS.num].
    cbn [app]. rewrite (set_middle pre (mid ++ post) y x) by exact Hpre.
    rewrite (get_middle pre (mid ++ post)) by exact Hpre.
    cbn [JS.num].
    specialize (IH (d1 ++ [x]) (pre ++ [JS.to_u8 x]) mid post
                   (Z.lxor c (JS.to_u8 x))).
    rewrite !length_app in IH. cbn [length] in IH.
    rewrite <- !app_assoc in IH. cbn [app] in IH.
    replace (length d1 + 1)%nat with (S (length d1)) in IH by lia.
    rewrite IH by lia. reflexivity.
Qed.

Lemma replicate_snoc (n : nat) : replicate (S n) 0 = replicate n 0 ++ [0].
Proof. induction n as [|n IH]; [reflexivity|]. cbn in *. by rewrite IH. Qed.

Lemma encodeV1_header (n : nat) (a b c d e : Z) :
  JS.set (JS.set (JS.set (JS.set (JS.set (JS.alloc (6 + n)) 0 a) 1 b) 2 c)
            3 d) 4 e
  = [JS.to_u8 a; JS.to_u8 b; JS.to_u8 c; JS.to_u8 d; JS.to_u8 e]
    ++ replicate n 0 ++ [0].
Proof.
  unfold JS.alloc. cbn [Nat.add]. rewrite <- replicate_snoc. reflexivity.
Qed.

Lemma encodeV1_closed (command : Z) (data : list Z) :
  encodeV1 command data
  = [36; 77; 60; JS.to_u8 (Z.of_nat (length data)); JS.to_u8 command]
    ++ (JS.to_u8 <$> data)
    ++ [JS.to_u8
          (fold_left Z.lxor (JS.to_u8 <$> data)
             (Z.lxor (JS.to_u8 (Z.of_nat (length data)))
                     (JS.to_u8 command)))].
Proof.
  unfold encodeV1. rewrite encodeV1_header.
  set (hdr := [JS.to_u8 (ascii "$"); JS.to_u8 (ascii "M");
               JS.to_u8 (ascii "<"); JS.to_u8 (Z.of_nat (length data));
               JS.to_u8 command]).
  assert (H3 : JS.num (JS.get (hdr ++ replicate (length data) 0 ++ [0]) 3)
               = JS.to_u8 (Z.of_nat (length data))) by reflexivity.
  assert (H4 : JS.num (JS.get (hdr ++ replicate (length data) 0 ++ [0]) 4)
               = JS.to_u8 command) by reflexivity.
  rewrite H3, H4. clear H3 H4.
  destruct (0 <? length data)%nat eqn:Hpos.
  - rewrite (encodeV1_loop_spec data [] hdr (replicate (length data) 0) [0])
      by (try rewrite length_replicate; reflexivity).
    rewrite app_assoc.
    rewrite (set_middle (hdr ++ (JS.to_u8 <$> data)) [] 0).
    + rewrite <- app_assoc. reflexivity.
    + rewrite length_app, length_fmap. reflexivity.
  - apply Nat.ltb_ge in Hpos. destruct data; [reflexivity|cbn in Hpos; lia].
Qed.

Lemma encodeV2_loop_spec (d2 : list Z) :
  forall (d1 pre mid post : list Z),
    length pre = (8 + length d1)%nat ->
    length mid = length d2 ->
    encodeV2_loop (d1 ++ d2) (length d1) (length d2) (pre ++ mid ++ post)
    = pre ++ (JS.to_u8 <$> d2) ++ post.
Proof.
  induction d2 as [|x d2 IH]; intros d1 pre mid post Hpre Hmid.
  - destruct mid; [reflexivity|discriminate].
  - destruct mid as [|y mid]; [discriminate|]. injection Hmid as Hmid.
    cbn [length encodeV2_loop].
    rewrite (get_middle d1 d2 x) by reflexivity. cbn [JS.num app].
    rewrite (set_middle pre (mid ++ post) y x) by exact Hpre.
    specialize (IH (d1 ++ [x]) (pre ++ [JS.to_u8 x]) mid post).
    rewrite !length_app in IH. cbn [length] in IH.
    rewrite <- !app_assoc in IH. cbn [app] in IH.
    replace (length d1 + 1)%nat with (S (length d1)) in IH by lia.
    rewrite IH by lia. reflexivity.
Qed.

Lemma encodeV2_header (n : nat) (a b c d e f g h : Z) :
  JS.set (JS.set (JS.set (JS.set (JS.set (JS.set (JS.set (JS.set
    (JS.alloc (9 + n)) 0 a) 1 b) 2 c) 3 d) 4 e) 5 f) 6 g) 7 h
  = [JS.to_u8 a; JS.to_u8 b; JS.to_u8 c; JS.to_u8 d; JS.to_u8 e;
     JS.to_u8 f; JS.to_u8 g; JS.to_u8 h]
    ++ replicate n 0 ++ [0].
Proof.
  unfold JS.alloc. cbn [Nat.add]. rewrite <- replicate_snoc. reflexivity.
Qed.

Lemma encodeV2_closed (command : Z) (data : list Z) :
  encodeV2 command data
  = [36; 88; 60] ++ v2_covered_header command (length data)
    ++ (JS.to_u8 <$> data)
    ++ [JS.to_u8
          (Reference.crc8DvbS2
             (v2_covered_header command (length data)
              ++ (JS.to_u8 <$> data)))].
Proof.
  unfold encodeV2. rewrite encodeV2_header.
  set (hdr := [JS.to_u8 (ascii "$"); JS.to_u8 (ascii "X");
               JS.to_u8 (ascii "<"); JS.to_u8 0;
               JS.to_u8 (Z.land command 0xFF);
               JS.to_u8 (Z.land (Z.shiftr command 8) 0xFF);
               JS.to_u8 (Z.land (Z.of_nat (length data)) 0xFF);
               JS.to_u8 (Z.land (Z.shiftr (Z.of_nat (length data)) 8) 0xFF)]).
  assert (Hloop : encodeV2_loop data 0 (length data)
                     (hdr ++ replicate (length data) 0 ++ [0])
                   = hdr ++ (JS.to_u8 <$> data) ++ [0]).
  { apply (encodeV2_loop_spec data [] hdr (replicate (length data) 0) [0]);
      [reflexivity|apply length_replicate]. }
  rewrite Hloop. clear Hloop.
  replace (9 + length data - 1)%nat with (8 + length data)%nat by lia.
  unfold crc8DvbS2Data.
  rewrite crc8_loop_fold
    by (rewrite !length_app, length_fmap; subst hdr; cbn [length]; lia).
  replace (8 + length data - 3)%nat with (5 + length data)%nat by lia.
  change (drop 3 (hdr ++ (JS.to_u8 <$> data) ++ [0]))
    with (v2_covered_header command (length data)
          ++ (JS.to_u8 <$> data) ++ [0]).
  rewrite (app_assoc (v2_covered_header command (length data))).
  rewrite take_app_length'
    by (rewrite length_app, length_fmap; reflexivity).
  rewrite (app_assoc hdr).
  rewrite (set_middle (hdr ++ (JS.to_u8 <$> data)) [] 0)
    by (rewrite length_app, length_fmap; reflexivity).
  rewrite <- app_assoc. reflexivity.
Qed.

Lemma encodeV1_length (command : Z) (data : list Z) :
  length (encodeV1 command data) = (6 + length data)%nat.
Proof.
  rewrite encodeV1_closed, !length_app, length_fmap. cbn [length]. lia.
Qed.

Lemma encodeV1_marker (command : Z) (data : list Z) :
  encodeV1 command data !! 1%nat = Some 77.
Proof. rewrite encodeV1_closed. reflexivity. Qed.

Lemma encodeV2_marker (command : Z) (data : list Z) :
  encodeV2 command data !! 1%nat = Some 88.
Proof. rewrite encodeV2_closed. reflexivity. Qed.

Lemma encoders_differ (c1 c2 : Z) (d1 d2 : list Z) :
  encodeV1 c1 d1 <> encodeV2 c2 d2.
Proof.
  intros H. pose proof (encodeV1_marker c1 d1) as H1.
  rewrite H, encodeV2_marker in H1. discriminate.
Qed.

(** ** The claims on the checksum engine and the encoders *)

(** C3. For a byte sequence and a half-open index range inside it,
    [crc8DvbS2Data] equals the reference CRC8-DVB-S2 (polynomial 0xD5,
    most significant bit first, initial value 0, no reflection) of the
    bytes of the range; the checksum of an empty range is 0; and the
    function is order-sensitive: swapping the two bytes 1 and 2 changes
    the result. *)
Theorem crc8DvbS2Data_reference (data : list Z) (start end_ : nat) :
  (start <= end_ <= length data)%nat ->
  crc8DvbS2Data data start end_
  = Reference.crc8DvbS2 (Reference.range data start end_)
  /\ (forall s e : nat, (e <= s)%nat -> crc8DvbS2Data data s e = 0)
  /\ crc8DvbS2Data [] 0 0 = 0
  /\ exists a b : Z,
       JS.u8 a /\ JS.u8 b /\
       crc8DvbS2Data [a; b] 0 2 <> crc8DvbS2Data [b; a] 0 2.
Proof.
  intros Hrange. repeat split.
  - unfold crc8DvbS2Data, Reference.crc8DvbS2, Reference.range.
    apply crc8_loop_fold. lia.
  - intros s e Hle. unfold crc8DvbS2Data.
    replace (e - s)%nat with 0%nat by lia. reflexivity.
  - exists 1, 2. unfold JS.u8. repeat split; try lia.
    vm_compute. discriminate.
Qed.

Lemma crc8DvbS2Data_reference_witness :
  (0 <= 9 <= length check_input)%nat
  /\ crc8DvbS2Data check_input 0 9
     = Reference.crc8DvbS2
         (Reference.range check_input 0 9)
  /\ Reference.crc8DvbS2 check_input = 0xBC.
Proof.
  assert (Hr : (0 <= 9 <= length check_input)%nat)
    by (cbn; lia).
  split; [exact Hr|]. split; [|reflexivity].
  exact (proj1 (crc8DvbS2Data_reference _ 0%nat 9%nat Hr)).
Defined.

(** C6. For a command code in 0..254 and a payload of 0..255 bytes,
    [encodeV1] yields exactly '$', 'M', '<', the payload length, the
    command, the payload, and the XOR of length, command and all payload
    bytes; and [encodeV1(1, [])] is [24 4D 3C 00 01 01] (hexadecimal). *)
Theorem encodeV1_frame (command : Z) (data : list Z) :
  0 <= command <= 254 ->
  Z.of_nat (length data) <= 255 ->
  Forall JS.u8 data ->
  encodeV1 command data
  = [ascii "$"; ascii "M"; ascii "<"; Z.of_nat (length data); command]
    ++ data
    ++ [Reference.xorChecksum (Z.of_nat (length data) :: command :: data)]
  /\ encodeV1 1 [] = [0x24; 0x4D; 0x3C; 0x00; 0x01; 0x01].
Proof.
  intros Hcmd Hlen Hdata. split; [|reflexivity].
  assert (Hl : JS.u8 (Z.of_nat (length data))) by (unfold JS.u8; lia).
  assert (Hc : JS.u8 command) by (unfold JS.u8; lia).
  rewrite encodeV1_closed.
  rewrite (fmap_to_u8_small data Hdata), (to_u8_small _ Hl), (to_u8_small _ Hc).
  rewrite to_u8_small by (apply fold_lxor_u8; [|apply lxor_u8]; assumption).
  unfold Reference.xorChecksum. cbn [fold_left]. rewrite Z.lxor_0_l.
  reflexivity.
Qed.

Lemma encodeV1_frame_witness :
  0 <= 5 <= 254 /\ Z.of_nat (length [1; 2; 3]) <= 255
  /\ Forall JS.u8 [1; 2; 3]
  /\ encodeV1 5 [1; 2; 3]
     = [ascii "$"; ascii "M"; ascii "<"; 3; 5] ++ [1; 2; 3] ++ [6].
Proof.
  assert (Hc : 0 <= 5 <= 254) by lia.
  assert (Hl : Z.of_nat (length [1; 2; 3]) <= 255) by (cbn; lia).
  assert (Hd : Forall JS.u8 [1; 2; 3])
    by (repeat constructor; unfold JS.u8; lia).
  split; [exact Hc|]. split; [exact Hl|]. split; [exact Hd|].
  exact (proj1 (encodeV1_frame 5 [1; 2; 3] Hc Hl Hd)).
Defined.

(** C4. For a command code in 255..65535 and a payload of 0..65535
    bytes, [encodeV2] yields '$', 'X', '<', a flag byte 0, the command as
    two little-endian bytes, the payload length as two little-endian
    bytes, the payload, and a last byte that is the CRC8-DVB-S2 of the
    bytes from the flag byte through the last payload byte, which is what
    [crc8DvbS2Data] gives on that index range of the frame. *)
Theorem encodeV2_frame (command : Z) (data : list Z) :
  255 <= command <= 65535 ->
  Z.of_nat (length data) <= 65535 ->
  Forall JS.u8 data ->
  let len := Z.of_nat (length data) in
  let covered :=
    [0; command mod 256; command / 256; len mod 256; len / 256] ++ data in
  encodeV2 command data
  = [ascii "$"; ascii "X"; ascii "<"] ++ covered
    ++ [Reference.crc8DvbS2 covered]
  /\ Reference.range (encodeV2 command data) 3 (8 + length data) = covered
  /\ crc8DvbS2Data (encodeV2 command data) 3 (8 + length data)
     = Reference.crc8DvbS2 covered.
Proof.
  intros Hcmd Hlen Hdata len covered.
  assert (Hbyte : forall x, 0 <= x <= 65535 ->
            JS.to_u8 (Z.land x 0xFF) = x mod 256 /\
            JS.to_u8 (Z.land (Z.shiftr x 8) 0xFF) = x / 256).
  { intros x Hx. rewrite !land_255, Z.shiftr_div_pow2 by lia.
    change (2 ^ 8) with 256. unfold JS.to_u8.
    rewrite Z.mod_mod by lia. split; [reflexivity|].
    rewrite Z.mod_mod by lia. apply Z.mod_small.
    split; [apply Z.div_pos; lia|apply Z.div_lt_upper_bound; lia]. }
  assert (Hhdr : v2_covered_header command (length data) ++ (JS.to_u8 <$> data)
                 = covered).
  { unfold v2_covered_header, covered, len.
    destruct (Hbyte command ltac:(lia)) as [-> ->].
    destruct (Hbyte (Z.of_nat (length data)) ltac:(lia)) as [-> ->].
    rewrite (fmap_to_u8_small data Hdata). reflexivity. }
  assert (Hframe : encodeV2 command data
                   = [ascii "$"; ascii "X"; ascii "<"] ++ covered
                     ++ [Reference.crc8DvbS2 covered]).
  { rewrite encodeV2_closed. rewrite !app_assoc, <- (app_assoc [36; 88; 60]).
    rewrite Hhdr. rewrite (to_u8_small _ (crc8DvbS2_u8 covered)).
    rewrite <- !app_assoc. reflexivity. }
  assert (Hcov : length covered = (5 + length data)%nat) by reflexivity.
  assert (Hr : Reference.range (encodeV2 command data) 3 (8 + length data)
               = covered).
  { rewrite Hframe. unfold Reference.range.
    replace (8 + length data - 3)%nat with (length covered) by lia.
    change (drop 3 ([ascii "$"; ascii "X"; ascii "<"] ++ covered
                    ++ [Reference.crc8DvbS2 covered]))
      with (covered ++ [Reference.crc8DvbS2 covered]).
    apply take_app_length. }
  repeat split; [exact Hframe|exact Hr|].
  transitivity (Reference.crc8DvbS2
                  (Reference.range (encodeV2 command data) 3
                     (8 + length data))); [|rewrite Hr; reflexivity].
  unfold crc8DvbS2Data, Reference.crc8DvbS2, Reference.range.
  apply crc8_loop_fold. rewrite Hframe, !length_app, Hcov. cbn [length]. lia.
Qed.

Lemma encodeV2_frame_witness :
  255 <= 0x3003 <= 65535 /\ Z.of_nat (length [1; 2; 3]) <= 65535
  /\ Forall JS.u8 [1; 2; 3]
  /\ encodeV2 0x3003 [1; 2; 3]
     = [ascii "$"; ascii "X"; ascii "<"] ++ [0; 0x03; 0x30; 3; 0; 1; 2; 3]
       ++ [221].
Proof.
  assert (Hc : 255 <= 0x3003 <= 65535) by lia.
  assert (Hl : Z.of_nat (length [1; 2; 3]) <= 65535) by (cbn; lia).
  assert (Hd : Forall JS.u8 [1; 2; 3])
    by (repeat constructor; unfold JS.u8; lia).
  split; [exact Hc|]. split; [exact Hl|]. split; [exact Hd|].
  exact (proj1 (encodeV2_frame 0x3003 [1; 2; 3] Hc Hl Hd)).
Defined.

(** C5, as stated, fails: a payload of 256 bytes is encoded, not
    rejected, and the length byte of the frame is 0. *)
Lemma encodeV1_accepts_256_bytes :
  255 < Z.of_nat (length (replicate 256 0))
  /\ encodeV1_outcome 1 (replicate 256 0) <> Rejected_oversized
  /\ encodeV1 1 (replicate 256 0) !! 3%nat = Some 0
  /\ ~ encodeV1_rejects_oversized.
Proof.
  assert (Hlen : 255 < Z.of_nat (length (replicate 256 0)))
    by (rewrite length_replicate; lia).
  split; [exact Hlen|]. split; [discriminate|]. split; [reflexivity|].
  intros H. specialize (H 1 (replicate 256 0) Hlen). discriminate.
Qed.

(** C5, amended. [encodeV1] has no check of the payload length: for a
    payload longer than 255 bytes it returns a frame of 6 bytes plus the
    payload, whose length byte is the payload length modulo 256 and
    whose payload part is the whole payload. *)
Theorem encodeV1_oversized_truncates (command : Z) (data : list Z) :
  255 < Z.of_nat (length data) ->
  Forall JS.u8 data ->
  exists frame : list Z,
    encodeV1_outcome command data = Returned frame
    /\ length frame = (6 + length data)%nat
    /\ frame !! 3%nat = Some (Z.of_nat (length data) mod 256)
    /\ frame !! 3%nat <> Some (Z.of_nat (length data))
    /\ take (length data) (drop 5 frame) = data.
Proof.
  intros Hlen Hdata. exists (encodeV1 command data).
  split; [reflexivity|]. split; [apply encodeV1_length|].
  rewrite encodeV1_closed, (fmap_to_u8_small data Hdata).
  split; [reflexivity|]. split.
  - cbn. unfold JS.to_u8. intros [= H].
    pose proof (Z.mod_pos_bound (Z.of_nat (length data)) 256 ltac:(lia)).
    lia.
  - cbn [app drop]. apply take_app_length.
Qed.

Lemma encodeV1_oversized_truncates_witness :
  255 < Z.of_nat (length (replicate 256 7))
  /\ Forall JS.u8 (replicate 256 7)
  /\ exists frame : list Z,
       encodeV1_outcome 2 (replicate 256 7) = Returned frame
       /\ length frame = (6 + length (replicate 256 7))%nat
       /\ frame !! 3%nat
          = Some (Z.of_nat (length (replicate 256 7)) mod 256)
       /\ frame !! 3%nat <> Some (Z.of_nat (length (replicate 256 7)))
       /\ take (length (replicate 256 7)) (drop 5 frame) = replicate 256 7.
Proof.
  assert (Hlen : 255 < Z.of_nat (length (replicate 256 7)))
    by (rewrite length_replicate; lia).
  assert (Hd : Forall JS.u8 (replicate 256 7))
    by (apply Forall_replicate; unfold JS.u8; lia).
  split; [exact Hlen|]. split; [exact Hd|].
  exact (encodeV1_oversized_truncates 2 (replicate 256 7) Hlen Hd).
Defined.

(** C7. [send] hands to the transport the V1 encoding of the command
    and payload exactly when the command code is at most 254, and the V2
    encoding exactly when it is above 254; a missing payload counts as
    the empty one. *)
Theorem send_selects_format {WriteResult : Type} (m : Msp) (command : Z)
    (data : option (list Z)) (written : option WriteResult) :
  exists (bufferOut : list Z) (rest : list Effect),
    (send m command data written).1.2 = SerialWrite bufferOut :: rest
    /\ (bufferOut = encodeV1 command (default [] data) <-> command <= 254)
    /\ (bufferOut = encodeV2 command (default [] data) <-> command > 254).
Proof.
  unfold send.
  destruct (Z.leb_spec command 254) as [Hle|Hgt].
  - exists (encodeV1 command (default [] data)).
    destruct written as [result|]; eexists; (split; [reflexivity|]).
    all: split; split; intros H; try reflexivity; try lia.
    all: exfalso; exact (encoders_differ _ _ _ _ H).
  - exists (encodeV2 command (default [] data)).
    destruct written as [result|]; eexists; (split; [reflexivity|]).
    all: split; split; intros H; try reflexivity; try lia.
    all: exfalso; symmetry in H; exact (encoders_differ _ _ _ _ H).
Qed.

(** ** The parser *)

Lemma processResponse_app (m : Msp) (a b : list Z) :
  processResponse m (a ++ b)
  = let '(m1, e1) := processResponse m a in
    let '(m2, e2) := processResponse m1 b in
    (m2, e1 ++ e2).
Proof.
  revert m. induction a as [|char a IH]; intros m.
  - cbn. destruct (processResponse m b). reflexivity.
  - cbn [app processResponse].
    destruct (processChar m char) as [m1 e1]. rewrite IH.
    destruct (processResponse m1 a) as [m2 e2].
    destruct (processResponse m2 b) as [m3 e3].
    rewrite app_assoc. reflexivity.
Qed.

(** C2. Feeding the chunks of any split of a byte sequence one at a
    time, with the parser state kept between the calls, leaves the same
    parser state and makes the same calls (the same decoded frames and
    the same logged errors, in the same order) as feeding the whole
    sequence at once. *)
Theorem feed_chunks_invariant (m : Msp) (chunks : list (list Z)) :
  feed m chunks = processResponse m (concat chunks)
  /\ frames (feed m chunks).2 = frames (processResponse m (concat chunks)).2
  /\ errors (feed m chunks).2 = errors (processResponse m (concat chunks)).2.
Proof.
  assert (H : feed m chunks = processResponse m (concat chunks)).
  { revert m. induction chunks as [|chunk chunks IH]; intros m; [reflexivity|].
    cbn [feed concat read]. rewrite processResponse_app.
    destruct (processResponse m chunk) as [m1 e1]. rewrite IH. reflexivity. }
  split; [exact H|]. rewrite H. split; reflexivity.
Qed.

Lemma fold_lxor_acc (l : list Z) (c : Z) :
  fold_left Z.lxor l c = Z.lxor c (fold_left Z.lxor l 0).
Proof.
  revert c. induction l as [|x l IH]; intros c.
  - cbn. rewrite Z.lxor_0_r. reflexivity.
  - cbn [fold_left]. rewrite IH, (IH (Z.lxor 0 x)), Z.lxor_0_l.
    apply Z.lxor_assoc.
Qed.

(** The payload stage: from stage 5 with [done] already stored, the
    bytes [p] that complete the payload lead to stage 6. *)
Lemma processResponse_payload (p : list Z) :
  forall (done : list Z) (cc chk : Z) (cmd : option Z),
    p <> [] ->
    Forall JS.u8 p ->
    processResponse
      {| commandCount := cc; state := 5;
         messageBuffer := done ++ replicate (length p) 0;
         messageChecksum := chk;
         messageLengthExpected := Z.of_nat (length done + length p);
         messageLengthReceived := length done;
         command := cmd |} p
    = ({| commandCount := cc; state := 6;
          messageBuffer := done ++ p;
          messageChecksum := fold_left Z.lxor p chk;
          messageLengthExpected := Z.of_nat (length done + length p);
          messageLengthReceived := (length done + length p)%nat;
          command := cmd |}, []).
Proof.
  induction p as [|x p IH]; intros done cc chk cmd Hne Hp; [congruence|].
  inversion Hp as [|? ? Hx Hp']; subst.
  cbn [processResponse processChar state messageBuffer messageChecksum
       messageLengthExpected messageLengthReceived command commandCount
       length replicate].
  rewrite (set_middle done (replicate (length p) 0) 0 x) by reflexivity.
  rewrite (to_u8_small x Hx).
  destruct p as [|y p].
  - cbn [length replicate processResponse fold_left app].
    destruct (Z.leb_spec (Z.of_nat (length done + 1))
                (Z.of_nat (S (length done))))
      as [_|Hlt]; [|lia].
    replace (length done + 1)%nat with (S (length done)) by lia.
    reflexivity.
  - destruct (Z.leb_spec (Z.of_nat (length done + S (length (y :: p))))
                (Z.of_nat (S (length done)))) as [Hle|_];
      [cbn [length] in Hle; lia|].
    specialize (IH (done ++ [x]) cc (Z.lxor chk x) cmd ltac:(discriminate) Hp').
    rewrite length_app in IH. cbn [length] in IH.
    rewrite <- !app_assoc in IH. cbn [app] in IH.
    replace (length done + 1 + S (length p))%nat
      with (length done + S (S (length p)))%nat in IH by lia.
    replace (length done + 1)%nat with (S (length done)) in IH by lia.
    cbn [length]. rewrite IH. reflexivity.
Qed.

(** The five header bytes of a V1 frame, from stage 0. *)
Lemma processResponse_header (m : Msp) (dir len cmd : Z) :
  state m = 0 ->
  dir = ascii "<" \/ dir = ascii ">" ->
  processResponse m [ascii "$"; ascii "M"; dir; len; cmd]
  = ({| commandCount := commandCount m;
        state := if 0 <? len then 5 else 6;
        messageBuffer := JS.alloc (Z.to_nat len);
        messageChecksum := Z.lxor len cmd;
        messageLengthExpected := len;
        messageLengthReceived := messageLengthReceived m;
        command := Some cmd |}, []).
Proof.
  intros Hst Hdir. destruct m as [cc st buf chk exp rcv c0].
  cbn in Hst. subst st.
  destruct Hdir; subst dir; simpl; destruct (0 <? len); reflexivity.
Qed.

(** A whole V1 frame from stage 0: it is emitted exactly when the last
    byte is the XOR of the length, the command and the payload bytes, and
    the scratch state is cleared in both cases. *)
Lemma processResponse_frame (m : Msp) (dir cmd c : Z) (payload : list Z) :
  state m = 0 ->
  messageLengthReceived m = 0%nat ->
  dir = ascii "<" \/ dir = ascii ">" ->
  Forall JS.u8 payload ->
  processResponse m
    ([ascii "$"; ascii "M"; dir; Z.of_nat (length payload); cmd]
     ++ payload ++ [c])
  = if fold_left Z.lxor payload (Z.lxor (Z.of_nat (length payload)) cmd) =? c
    then (clear_scratch (with_commandCount (commandCount m - 1) m),
          [AddCommand {| commandName := Some cmd; data := payload |}])
    else (clear_scratch m, []).
Proof.
  intros Hst Hrcv Hdir Hp.
  rewrite processResponse_app, (processResponse_header m dir _ cmd Hst Hdir).
  rewrite Hrcv, Nat2Z.id. unfold JS.alloc.
  destruct payload as [|x payload].
  - cbn [length fold_left app processResponse]. simpl (0 <? Z.of_nat 0).
    unfold processChar. cbn [state messageChecksum].
    destruct (_ =? c); reflexivity.
  - replace (0 <? Z.of_nat (length (x :: payload))) with true
      by (symmetry; apply Z.ltb_lt; cbn [length]; lia).
    rewrite processResponse_app.
    pose proof (processResponse_payload (x :: payload) [] (commandCount m)
                  (Z.lxor (Z.of_nat (length (x :: payload))) cmd) (Some cmd)
                  ltac:(discriminate) Hp) as Hpay.
    cbn [app length Nat.add] in Hpay. cbn [length]. rewrite Hpay.
    cbn [processResponse processChar state messageChecksum app].
    destruct (_ =? c); reflexivity.
Qed.

(** The request frame of [encodeV1], turned into a response. *)
Lemma as_response_encodeV1 (command : Z) (data : list Z) :
  0 <= command <= 255 ->
  Z.of_nat (length data) <= 255 ->
  Forall JS.u8 data ->
  as_response (encodeV1 command data)
  = [ascii "$"; ascii "M"; ascii ">"; Z.of_nat (length data); command]
    ++ data
    ++ [fold_left Z.lxor data (Z.lxor (Z.of_nat (length data)) command)].
Proof.
  intros Hcmd Hlen Hdata.
  assert (Hl : JS.u8 (Z.of_nat (length data))) by (unfold JS.u8; lia).
  assert (Hc : JS.u8 command) by (unfold JS.u8; lia).
  rewrite encodeV1_closed.
  rewrite (fmap_to_u8_small data Hdata), (to_u8_small _ Hl), (to_u8_small _ Hc).
  rewrite to_u8_small by (apply fold_lxor_u8; [|apply lxor_u8]; assumption).
  reflexivity.
Qed.

(** A valid response parses from any state that is at stage 0 with no
    payload byte counted. *)
Lemma processResponse_valid (m : Msp) (command : Z) (data : list Z) :
  state m = 0 ->
  messageLengthReceived m = 0%nat ->
  0 <= command <= 255 ->
  Z.of_nat (length data) <= 255 ->
  Forall JS.u8 data ->
  processResponse m (as_response (encodeV1 command data))
  = (clear_scratch (with_commandCount (commandCount m - 1) m),
     [AddCommand {| commandName := Some command; data := data |}]).
Proof.
  intros Hst Hrcv Hcmd Hlen Hdata.
  rewrite as_response_encodeV1 by assumption.
  rewrite processResponse_frame by (try right; auto).
  rewrite Z.eqb_refl. reflexivity.
Qed.

(** ** The claims on the parser *)

(** C1. For a command code in 1..254 and a payload of 0..255 bytes, the
    V1 encoding with the direction byte changed from '<' to '>', fed to a
    parser whose scratch state is reset, emits exactly one frame: its
    command is the original command and its payload the original
    payload.  Nothing else is emitted and the parser is reset again. *)
Theorem v1_round_trip (m : Msp) (command : Z) (data : list Z) :
  1 <= command <= 254 ->
  Z.of_nat (length data) <= 255 ->
  Forall JS.u8 data ->
  let fresh := clear_scratch m in
  let '(m', effects) :=
    processResponse fresh (as_response (encodeV1 command data)) in
  effects = [AddCommand {| commandName := Some command; data := data |}]
  /\ frames effects = [{| commandName := Some command; data := data |}]
  /\ m' = clear_scratch (with_commandCount (commandCount m - 1) m).
Proof.
  intros Hcmd Hlen Hdata fresh.
  rewrite (processResponse_valid fresh command data) by (auto; lia).
  repeat split.
Qed.

Lemma v1_round_trip_witness :
  1 <= 5 <= 254 /\ Z.of_nat (length [1; 2; 3]) <= 255
  /\ Forall JS.u8 [1; 2; 3]
  /\ frames (processResponse Msp_new (as_response (encodeV1 5 [1; 2; 3]))).2
     = [{| commandName := Some 5; data := [1; 2; 3] |}].
Proof.
  assert (Hc : 1 <= 5 <= 254) by lia.
  assert (Hl : Z.of_nat (length [1; 2; 3]) <= 255) by (cbn; lia).
  assert (Hd : Forall JS.u8 [1; 2; 3])
    by (repeat constructor; unfold JS.u8; lia).
  split; [exact Hc|]. split; [exact Hl|]. split; [exact Hd|].
  pose proof (v1_round_trip Msp_new 5 [1; 2; 3] Hc Hl Hd) as H.
  cbv zeta in H. change (clear_scratch Msp_new) with Msp_new in H.
  destruct (processResponse Msp_new (as_response (encodeV1 5 [1; 2; 3])))
    as [m' effects].
  exact (proj1 (proj2 H)).
Defined.

Lemma processChar_enters_marker_stage (m : Msp) (char : Z) :
  state (processChar m char).1 = 1 -> state m = 0 /\ char = ascii "$".
Proof.
  destruct m as [cc st buf chk exp rcv c0].
  unfold processChar. cbn [state messageLengthExpected messageChecksum].
  stage_cases st; simpl;
    repeat match goal with
      | |- context [if ?b then _ else _] => destruct b eqn:?
      end; simpl; intros H; try discriminate H; lia.
Qed.

Lemma processChar_enters_direction_stage (m : Msp) (char : Z) :
  state (processChar m char).1 = 2 -> state m = 1 /\ char = ascii "M".
Proof.
  destruct m as [cc st buf chk exp rcv c0].
  unfold processChar. cbn [state messageLengthExpected messageChecksum].
  stage_cases st; simpl;
    repeat match goal with
      | |- context [if ?b then _ else _] => destruct b eqn:?
      end; simpl; intros H; try discriminate H; lia.
Qed.

Lemma processResponse_snoc (m : Msp) (pre : list Z) (char : Z) :
  (processResponse m (pre ++ [char])).1
  = (processChar (processResponse m pre).1 char).1.
Proof.
  rewrite processResponse_app. destruct (processResponse m pre) as [m1 e1].
  cbn. destruct (processChar m1 char). reflexivity.
Qed.

(** C10. At stage 1 a '$' is handled like every byte other than 'M':
    the parser goes back to stage 0, the byte is consumed and nothing
    else changes.  So in every stream the parser reaches stage 2 (header
    recognised) only on an 'M' that comes right after the '$' that took
    it from stage 0 to stage 1; and '$' '$' 'M' '>' 00 01 01 emits no
    frame. *)
Theorem marker_stage_consumes_dollar (m : Msp) (pre : list Z) (c1 c2 : Z) :
  state (processResponse m (pre ++ [c1; c2])).1 = 2 ->
  (state (processResponse m pre).1 = 0
   /\ c1 = ascii "$" /\ c2 = ascii "M"
   /\ state (processResponse m (pre ++ [c1])).1 = 1)
  /\ (forall (m1 : Msp) (char : Z),
        state m1 = 1 -> char <> ascii "M" ->
        processChar m1 char = (with_state 0 m1, []))
  /\ (forall m1 : Msp,
        state m1 = 1 ->
        processChar m1 (ascii "$") = (with_state 0 m1, [])
        /\ processResponse m1 [ascii "$"; ascii "M"]
           = (with_state 0 m1, []))
  /\ processResponse Msp_new
       [ascii "$"; ascii "$"; ascii "M"; ascii ">"; 0x00; 0x01; 0x01]
     = (Msp_new, []).
Proof.
  intros H.
  assert (Hstep : forall (m1 : Msp) (char : Z),
            state m1 = 1 -> char <> ascii "M" ->
            processChar m1 char = (with_state 0 m1, [])).
  { intros m1 char Hst Hne. unfold processChar. rewrite Hst.
    destruct (Z.eqb_spec char (ascii "M")); [contradiction|reflexivity]. }
  repeat split.
  - replace (pre ++ [c1; c2]) with ((pre ++ [c1]) ++ [c2]) in H
      by (rewrite <- app_assoc; reflexivity).
    rewrite processResponse_snoc in H.
    apply processChar_enters_direction_stage in H as [H _].
    rewrite processResponse_snoc in H.
    apply processChar_enters_marker_stage in H as [H _]. exact H.
  - replace (pre ++ [c1; c2]) with ((pre ++ [c1]) ++ [c2]) in H
      by (rewrite <- app_assoc; reflexivity).
    rewrite processResponse_snoc in H.
    apply processChar_enters_direction_stage in H as [H _].
    rewrite processResponse_snoc in H.
    apply processChar_enters_marker_stage in H as [_ H]. exact H.
  - replace (pre ++ [c1; c2]) with ((pre ++ [c1]) ++ [c2]) in H
      by (rewrite <- app_assoc; reflexivity).
    rewrite processResponse_snoc in H.
    apply processChar_enters_direction_stage in H as [_ H]. exact H.
  - replace (pre ++ [c1; c2]) with ((pre ++ [c1]) ++ [c2]) in H
      by (rewrite <- app_assoc; reflexivity).
    rewrite processResponse_snoc in H.
    apply processChar_enters_direction_stage in H as [H _]. exact H.
  - exact Hstep.
  - apply Hstep; [assumption|discriminate].
  - cbn [processResponse]. rewrite Hstep by (assumption || discriminate).
    destruct m1 as [cc st buf chk exp rcv c0]. reflexivity.
Qed.

Lemma marker_stage_consumes_dollar_witness :
  state (processResponse Msp_new ([0x07] ++ [ascii "$"; ascii "M"])).1 = 2
  /\ state (processResponse Msp_new [0x07]).1 = 0
  /\ state (processResponse Msp_new ([0x07] ++ [ascii "$"])).1 = 1.
Proof.
  assert (H : state (processResponse Msp_new
                       ([0x07] ++ [ascii "$"; ascii "M"])).1 = 2)
    by reflexivity.
  split; [exact H|].
  destruct (marker_stage_consumes_dollar Msp_new [0x07] _ _ H)
    as [(H0 & _ & _ & H1) _].
  split; [exact H0|exact H1].
Defined.

(** C8. At stage 6 a byte equal to the accumulated checksum makes the
    parser emit the frame (command and payload buffer) and decrement the
    in-flight counter; any other byte makes it emit nothing and log no
    error, with the counter unchanged.  In both cases the payload buffer,
    the checksum, both lengths and the command are cleared and the stage
    is 0 again, so that a valid frame that follows is parsed and
    emitted. *)
Theorem checksum_stage_resync (m : Msp) (char cmd : Z) (payload : list Z) :
  state m = 6 ->
  0 <= cmd <= 254 ->
  Z.of_nat (length payload) <= 255 ->
  Forall JS.u8 payload ->
  let '(m', effects) := processChar m char in
  (char = messageChecksum m ->
     effects = [AddCommand {| commandName := command m;
                              data := messageBuffer m |}]
     /\ commandCount m' = commandCount m - 1)
  /\ (char <> messageChecksum m ->
        effects = [] /\ commandCount m' = commandCount m)
  /\ (state m' = 0 /\ messageBuffer m' = [] /\ messageChecksum m' = 0
      /\ messageLengthExpected m' = 0 /\ messageLengthReceived m' = 0%nat
      /\ command m' = None)
  /\ processResponse m' (as_response (encodeV1 cmd payload))
     = (clear_scratch (with_commandCount (commandCount m' - 1) m'),
        [AddCommand {| commandName := Some cmd; data := payload |}]).
Proof.
  intros Hst Hcmd Hlen Hp.
  unfold processChar. rewrite Hst.
  destruct (Z.eqb_spec (messageChecksum m) char) as [Heq|Hne].
  - split; [intros _; split; reflexivity|].
    split; [intros Hc; congruence|].
    split; [repeat split|].
    apply processResponse_valid; auto; lia.
  - split; [intros Hc; congruence|].
    split; [intros _; split; reflexivity|].
    split; [repeat split|].
    apply processResponse_valid; auto; lia.
Qed.

Lemma checksum_stage_resync_witness :
  let m := {| commandCount := 1; state := 6; messageBuffer := [1; 7; 3];
              messageChecksum := 3; messageLengthExpected := 3;
              messageLengthReceived := 3; command := Some 5 |} in
  state m = 6 /\ 0 <= 4 <= 254 /\ Z.of_nat (length [9; 8]) <= 255
  /\ Forall JS.u8 [9; 8]
  /\ processChar m 6 = (clear_scratch m, [])
  /\ frames (processResponse (processChar m 6).1
               (as_response (encodeV1 4 [9; 8]))).2
     = [{| commandName := Some 4; data := [9; 8] |}].
Proof.
  intros m.
  assert (Hs : state m = 6) by reflexivity.
  assert (Hc : 0 <= 4 <= 254) by lia.
  assert (Hl : Z.of_nat (length [9; 8]) <= 255) by (cbn; lia).
  assert (Hd : Forall JS.u8 [9; 8])
    by (repeat constructor; unfold JS.u8; lia).
  split; [exact Hs|]. split; [exact Hc|]. split; [exact Hl|].
  split; [exact Hd|]. split; [reflexivity|].
  pose proof (checksum_stage_resync m 6 4 [9; 8] Hs Hc Hl Hd) as H.
  destruct (processChar m 6) as [m' effects].
  destruct H as (_ & _ & _ & H). cbn [fst]. rewrite H. reflexivity.
Defined.

Lemma lxor_cancel_r (a b x : Z) : Z.lxor a x = Z.lxor b x -> a = b.
Proof.
  intros H. apply (f_equal (fun z => Z.lxor z x)) in H.
  rewrite !Z.lxor_assoc, Z.lxor_nilpotent, !Z.lxor_0_r in H. exact H.
Qed.

Lemma fold_lxor_insert_neq (l : list Z) (i : nat) (b b' c : Z) :
  l !! i = Some b -> b' <> b ->
  fold_left Z.lxor (<[i := b']> l) c <> fold_left Z.lxor l c.
Proof.
  intros Hi Hne.
  pose proof (take_drop_middle l i b Hi) as E.
  pose proof (insert_take_drop l i b' (lookup_lt_Some _ _ _ Hi)) as E'.
  revert E E'. generalize (take i l) (drop (S i) l). intros l1 l2 E E'.
  rewrite E'. clear E' Hi. subst l.
  rewrite !fold_left_app. cbn [fold_left].
  rewrite (fold_lxor_acc _ (Z.lxor _ b')), (fold_lxor_acc _ (Z.lxor _ b)).
  intros H. apply lxor_cancel_r in H.
  rewrite !(Z.lxor_comm (fold_left _ _ _)) in H.
  apply lxor_cancel_r in H. contradiction.
Qed.

(** Resynchronisation after a corrupted payload byte: the damaged frame
    is dropped without any call, and the valid frame behind it in the
    same stream is emitted. *)
Lemma corrupted_payload_dropped (m : Msp) (cmd1 cmd2 : Z)
    (data1 data2 : list Z) (i : nat) (b b' : Z) :
  0 <= cmd1 <= 255 -> Z.of_nat (length data1) <= 255 -> Forall JS.u8 data1 ->
  0 <= cmd2 <= 255 -> Z.of_nat (length data2) <= 255 -> Forall JS.u8 data2 ->
  data1 !! i = Some b -> JS.u8 b' -> b' <> b ->
  processResponse (clear_scratch m)
    (<[(5 + i)%nat := b']> (as_response (encodeV1 cmd1 data1))
     ++ as_response (encodeV1 cmd2 data2))
  = (clear_scratch (with_commandCount (commandCount m - 1) m),
     [AddCommand {| commandName := Some cmd2; data := data2 |}]).
Proof.
  intros Hc1 Hl1 Hd1 Hc2 Hl2 Hd2 Hi Hb' Hne.
  rewrite (as_response_encodeV1 cmd1 data1) by assumption.
  set (hdr := [ascii "$"; ascii "M"; ascii ">"; Z.of_nat (length data1); cmd1]).
  change (5 + i)%nat with (length hdr + i)%nat.
  rewrite insert_app_r.
  rewrite insert_app_l by (apply lookup_lt_Some in Hi; exact Hi).
  rewrite processResponse_app.
  pose proof (processResponse_frame (clear_scratch m) (ascii ">") cmd1
    (fold_left Z.lxor data1 (Z.lxor (Z.of_nat (length data1)) cmd1))
    (<[i := b']> data1) eq_refl eq_refl (or_intror eq_refl)) as Hf.
  rewrite length_insert in Hf. fold hdr in Hf. rewrite Hf.
  - destruct (Z.eqb_spec
      (fold_left Z.lxor (<[i := b']> data1)
         (Z.lxor (Z.of_nat (length data1)) cmd1))
      (fold_left Z.lxor data1 (Z.lxor (Z.of_nat (length data1)) cmd1)))
      as [Heq|_].
    + exfalso. exact (fold_lxor_insert_neq _ _ _ _ _ Hi Hne Heq).
    + rewrite (processResponse_valid (clear_scratch (clear_scratch m)))
        by (auto; lia).
      reflexivity.
  - apply Forall_insert; assumption.
Qed.

(** ** Promises, timers and the queue *)

Lemma settle_frame (p' : nat) (s : Settlement) (w : World) :
  codec (settle p' s w) = codec w /\ clock (settle p' s w) = clock w
  /\ timers (settle p' s w) = timers w /\ queue (settle p' s w) = queue w
  /\ length (promises (settle p' s w)) = length (promises w).
Proof.
  unfold settle. destruct (promises w !! p') as [[?|]|]; cbn;
    rewrite ?length_insert; repeat split.
Qed.

Lemma settle_other (p p' : nat) (s : Settlement) (w : World) :
  p' <> p ->
  promises (settle p' s w) !! p = promises w !! p
  /\ settlements p (settle p' s w) = settlements p w.
Proof.
  intros Hne. unfold settle.
  destruct (promises w !! p') as [[?|]|]; try (split; reflexivity).
  split.
  - cbn. apply list_lookup_insert_ne. exact Hne.
  - unfold settlements. cbn [settled].
    rewrite filter_app, filter_cons, filter_nil. cbn [fst snd].
    destruct (decide (p' = p)); [contradiction|].
    rewrite app_nil_r. reflexivity.
Qed.

Lemma settle_pending (p : nat) (s : Settlement) (w : World) :
  promises w !! p = Some None ->
  promises (settle p s w) !! p = Some (Some s)
  /\ settlements p (settle p s w) = settlements p w ++ [(clock w, p, s)].
Proof.
  intros Hp. unfold settle. rewrite Hp. split.
  - cbn. apply list_lookup_insert_eq. apply lookup_lt_Some in Hp. exact Hp.
  - unfold settlements. cbn [settled].
    rewrite filter_app, filter_cons, filter_nil. cbn [fst snd].
    destruct (decide (p = p)); [reflexivity|contradiction].
Qed.

Lemma settle_settled (p : nat) (s s0 : Settlement) (w : World) :
  promises w !! p = Some (Some s0) -> settle p s w = w.
Proof. intros Hp. unfold settle. rewrite Hp. reflexivity. Qed.

Lemma settled_once_settle (p p' : nat) (s s' : Settlement) (at_ : Z)
    (w : World) :
  settled_once p s at_ w -> settled_once p s at_ (settle p' s' w).
Proof.
  intros [Hp Hs]. destruct (decide (p' = p)) as [->|Hne].
  - rewrite (settle_settled p s' s w Hp). split; assumption.
  - destruct (settle_other p p' s' w Hne) as [Hp' Hs'].
    split; [rewrite Hp'|rewrite Hs']; assumption.
Qed.

(** A step that keeps the promises and the record of settlements, or
    only adds new promises behind, keeps a settled promise settled. *)
Lemma settled_once_same (p : nat) (s : Settlement) (at_ : Z) (w w' : World) :
  (forall o, promises w !! p = Some o -> promises w' !! p = Some o) ->
  settled w' = settled w ->
  settled_once p s at_ w -> settled_once p s at_ w'.
Proof.
  intros Hpr Hse [Hp Hs]. split; [apply Hpr, Hp|].
  unfold settlements in *. rewrite Hse. exact Hs.
Qed.

Section Request.

(** The request that the lemmas of this section follow: its promise, its
    timer, its deadline and its command code. *)
Variables (p t : nat) (d cmd : Z).

(** A step keeps a request open when it keeps the promise, the timer and
    the settlements of the request, arms no other timer for the promise
    and registers no other callback for the promise or the timer. *)
Lemma armed_keep (w w' : World) :
  promises w' !! p = promises w !! p ->
  timers w' !! t = timers w !! t ->
  settlements p w' = settlements p w ->
  (forall t' d' p',
     timers w' !! t' = Some (Some (d', p')) ->
     timers w !! t' = Some (Some (d', p')) \/ p' <> p) ->
  (forall c cb,
     (c, cb) ∈ queue w' ->
     (c, cb) ∈ queue w \/ (cb_promise cb <> p /\ cb_timeout cb <> t)) ->
  armed p t d cmd w -> armed p t d cmd w'.
Proof.
  intros Hp Ht Hs Hts Hq [A1 A2 A3 A4 A5]. split.
  - rewrite Hp. exact A1.
  - rewrite Ht. exact A2.
  - rewrite Hs. exact A3.
  - intros t' d' p' Hl Heq. destruct (Hts t' d' p' Hl) as [H|H].
    + exact (A4 t' d' p' H Heq).
    + contradiction.
  - intros c cb Hin Hor. destruct (Hq c cb Hin) as [H|[H1 H2]].
    + exact (A5 c cb H Hor).
    + destruct Hor; contradiction.
Qed.

Lemma armed_settle_other (p' : nat)
    (s : Settlement) (w : World) :
  p' <> p -> armed p t d cmd w -> armed p t d cmd (settle p' s w).
Proof.
  intros Hne. destruct (settle_other p p' s w Hne) as [Hp Hs].
  destruct (settle_frame p' s w) as (_ & _ & Ht & Hq & _).
  apply armed_keep; try assumption.
  - rewrite Ht. reflexivity.
  - intros t' d' p0 H. left. rewrite Ht in H. exact H.
  - intros c cb H. left. rewrite Hq in H. exact H.
Qed.

Lemma armed_clearTimeout_other (t' : nat)
    (w : World) :
  t' <> t -> armed p t d cmd w -> armed p t d cmd (clearTimeout t' w).
Proof.
  intros Hne. apply armed_keep; try reflexivity.
  - cbn. apply list_lookup_insert_ne. exact Hne.
  - intros t0 d' p' H. left. cbn in H.
    apply list_lookup_insert_Some in H as [(_ & H & _)|[_ H]];
      [discriminate|exact H].
  - intros c cb H. left. exact H.
Qed.

(** [fire] on another timer, due or not. *)
Lemma armed_fire_other (t' : nat) (w : World) :
  t' <> t -> armed p t d cmd w -> armed p t d cmd (fire t' w).
Proof.
  intros Hne Ha. unfold fire.
  destruct (timers w !! t') as [[[d' p']|]|] eqn:Ht'; try exact Ha.
  destruct (d' <=? clock w); [|exact Ha].
  assert (Hp : p' <> p).
  { intros ->. apply Hne. exact (ar_timers _ _ _ _ _ Ha t' d' p Ht' eq_refl). }
  apply armed_settle_other; [exact Hp|].
  apply armed_clearTimeout_other; assumption.
Qed.

(** [fire] on the timer of the request before its deadline. *)
Lemma pending_fire_own (w : World) :
  pending p t d cmd w -> fire t w = w.
Proof.
  intros [Ha Hc]. unfold fire. rewrite (ar_timer _ _ _ _ _ Ha).
  destruct (Z.leb_spec d (clock w)); [lia|reflexivity].
Qed.

(** [fire] on the timer of the request at its deadline: the promise is
    rejected, at that time. *)
Lemma armed_fire_due (w : World) :
  armed p t d cmd w -> d <= clock w ->
  settled_once p TimeoutError (clock w) (fire t w).
Proof.
  intros Ha Hc. unfold fire. rewrite (ar_timer _ _ _ _ _ Ha).
  destruct (Z.leb_spec d (clock w)); [|lia].
  destruct (settle_pending p TimeoutError (clearTimeout t w)
              (ar_promise _ _ _ _ _ Ha)) as [Hp Hs].
  split; [exact Hp|].
  rewrite Hs. change (settlements p (clearTimeout t w)) with (settlements p w).
  rewrite (ar_settled _ _ _ _ _ Ha). reflexivity.
Qed.

Lemma settled_once_fire (s : Settlement) (at_ : Z) (t' : nat)
    (w : World) :
  settled_once p s at_ w -> settled_once p s at_ (fire t' w).
Proof.
  intros Hd. unfold fire.
  destruct (timers w !! t') as [[[d' p']|]|]; try exact Hd.
  destruct (d' <=? clock w); [|exact Hd].
  apply settled_once_settle. destruct Hd as [H1 H2]. split; assumption.
Qed.

Lemma fire_frame (t' : nat) (w : World) :
  clock (fire t' w) = clock w /\ queue (fire t' w) = queue w
  /\ length (timers (fire t' w)) = length (timers w)
  /\ length (promises (fire t' w)) = length (promises w)
  /\ codec (fire t' w) = codec w.
Proof.
  unfold fire. destruct (timers w !! t') as [[[d' p']|]|]; try done.
  destruct (d' <=? clock w); [|done].
  destruct (settle_frame p' TimeoutError (clearTimeout t' w))
    as (Hm & Hc & Ht & Hq & Hl).
  rewrite Hc, Hq, Ht, Hl, Hm. cbn. rewrite length_insert. done.
Qed.

Lemma fold_fire_frame (l : list nat) (w : World) :
  let w' := fold_left (fun w t => fire t w) l w in
  clock w' = clock w /\ queue w' = queue w
  /\ length (timers w') = length (timers w)
  /\ length (promises w') = length (promises w)
  /\ codec w' = codec w.
Proof.
  revert w. induction l as [|t' l IH]; intros w; [done|].
  cbn. destruct (IH (fire t' w)) as (H1 & H2 & H3 & H4 & H5).
  destruct (fire_frame t' w) as (F1 & F2 & F3 & F4 & F5).
  rewrite H1, H2, H3, H4, H5. done.
Qed.

Lemma fold_fire_settled_once (s : Settlement) (at_ : Z) (l : list nat)
    (w : World) :
  settled_once p s at_ w ->
  settled_once p s at_ (fold_left (fun w t => fire t w) l w).
Proof.
  revert w. induction l as [|t' l IH]; intros w Hd; [exact Hd|].
  cbn. apply IH, settled_once_fire, Hd.
Qed.

Lemma fold_fire_pending (l : list nat) (w : World) :
  pending p t d cmd w ->
  pending p t d cmd (fold_left (fun w t => fire t w) l w).
Proof.
  revert w. induction l as [|t' l IH]; intros w Hp; [exact Hp|].
  cbn. apply IH. destruct (decide (t' = t)) as [->|Hne].
  - rewrite (pending_fire_own w Hp). exact Hp.
  - destruct Hp as [Ha Hc]. split; [apply armed_fire_other; assumption|].
    destruct (fire_frame t' w) as [-> _]. exact Hc.
Qed.

Lemma fold_fire_due (l : list nat) (w : World) :
  armed p t d cmd w -> d <= clock w -> t ∈ l ->
  settled_once p TimeoutError (clock w) (fold_left (fun w t => fire t w) l w).
Proof.
  revert w. induction l as [|t' l IH]; intros w Ha Hc Hin.
  - apply elem_of_nil in Hin. contradiction.
  - cbn. destruct (decide (t' = t)) as [->|Hne].
    + apply fold_fire_settled_once, armed_fire_due; assumption.
    + apply elem_of_cons in Hin as [Heq|Hin]; [congruence|].
      destruct (fire_frame t' w) as [Hclk _]. rewrite <- Hclk.
      apply IH; [apply armed_fire_other; assumption|lia|exact Hin].
Qed.

Lemma armed_with_clock (c : Z) (w : World) :
  armed p t d cmd w -> armed p t d cmd (with_clock c w).
Proof. apply armed_keep; auto. Qed.

Lemma tick_frame (w : World) :
  clock (tick w) = clock w + 1 /\ queue (tick w) = queue w
  /\ length (timers (tick w)) = length (timers w)
  /\ length (promises (tick w)) = length (promises w)
  /\ codec (tick w) = codec w.
Proof.
  unfold tick.
  exact (fold_fire_frame
           (seq 0 (length (timers (with_clock (clock w + 1) w))))
           (with_clock (clock w + 1) w)).
Qed.

Lemma tick_pending (w : World) :
  pending p t d cmd w -> clock w + 1 < d -> pending p t d cmd (tick w).
Proof.
  intros [Ha _] Hc. unfold tick. apply fold_fire_pending.
  split; [apply armed_with_clock, Ha|exact Hc].
Qed.

Lemma tick_due (w : World) :
  pending p t d cmd w -> clock w + 1 = d ->
  settled_once p TimeoutError d (tick w).
Proof.
  intros [Ha _] Hc. unfold tick.
  pose proof (armed_with_clock (clock w + 1) w Ha) as Ha'.
  pose proof (fold_fire_due
                (seq 0 (length (timers (with_clock (clock w + 1) w))))
                (with_clock (clock w + 1) w) Ha') as H.
  cbn [clock with_clock] in H. rewrite Hc in H. rewrite Hc. apply H; [lia|].
  apply elem_of_seq. pose proof (lookup_lt_Some _ _ _ (ar_timer _ _ _ _ _ Ha)).
  cbn. lia.
Qed.

Lemma tick_settled_once (s : Settlement) (at_ : Z) (w : World) :
  settled_once p s at_ w -> settled_once p s at_ (tick w).
Proof.
  intros Hd. unfold tick. apply fold_fire_settled_once.
  destruct Hd as [H1 H2]. split; assumption.
Qed.

(** *** The command queue *)

Lemma pop_waiter_Some (name : option Z) (q q' : list (Z * Callback))
    (cb : Callback) :
  pop_waiter name q = Some (cb, q') ->
  exists c, name = Some c /\ (c, cb) ∈ q /\ forall x, x ∈ q' -> x ∈ q.
Proof.
  revert q' cb.
  induction q as [|[c0 cb0] q IH]; intros q' cb H; [discriminate|].
  cbn in H. destruct (decide (name = Some c0)) as [->|Hne].
  - injection H as <- <-. exists c0. split; [reflexivity|].
    split; [apply elem_of_cons; left; reflexivity|].
    intros x Hx. apply elem_of_cons. right. exact Hx.
  - destruct (pop_waiter name q) as [[cb1 q1]|] eqn:Hpop; [|discriminate].
    injection H as <- <-. destruct (IH q1 cb1 eq_refl) as (c & Hn & Hin & Hsub).
    exists c. split; [exact Hn|]. split.
    + apply elem_of_cons. right. exact Hin.
    + intros x Hx. apply elem_of_cons in Hx as [->|Hx];
        apply elem_of_cons; [left; reflexivity|right; apply Hsub, Hx].
Qed.

Lemma pop_waiter_commute (name1 name2 : option Z)
    (q q' : list (Z * Callback)) (cb : Callback) :
  name1 <> name2 ->
  pop_waiter name1 q = Some (cb, q') ->
  fst <$> pop_waiter name2 q' = fst <$> pop_waiter name2 q.
Proof.
  intros Hne. revert q' cb.
  induction q as [|[c0 cb0] q IH]; intros q' cb H; [discriminate|].
  cbn in H. destruct (decide (name1 = Some c0)) as [->|Hne1].
  - injection H as <- <-. cbn.
    destruct (decide (name2 = Some c0)); [congruence|].
    destruct (pop_waiter name2 q) as [[? ?]|]; reflexivity.
  - destruct (pop_waiter name1 q) as [[cb1 q1]|] eqn:Hpop; [|discriminate].
    injection H as <- <-. cbn.
    destruct (decide (name2 = Some c0)); [reflexivity|].
    specialize (IH q1 cb1 eq_refl).
    destruct (pop_waiter name2 q1) as [[? ?]|],
      (pop_waiter name2 q) as [[? ?]|];
      cbn in *; congruence.
Qed.

Lemma pop_waiter_snoc (name : option Z) (q : list (Z * Callback))
    (x : Z * Callback) (cb : Callback) :
  fst <$> pop_waiter name q = Some cb ->
  fst <$> pop_waiter name (q ++ [x]) = Some cb.
Proof.
  induction q as [|[c0 cb0] q IH]; intros H; [discriminate|].
  cbn in *. destruct (decide (name = Some c0)); [exact H|].
  destruct (pop_waiter name q) as [[cb1 q1]|]; [|discriminate].
  cbn in H. injection H as ->. specialize (IH eq_refl).
  destruct (pop_waiter name (q ++ [x])) as [[cb2 q2]|]; [|discriminate].
  cbn in *. exact IH.
Qed.

Lemma pop_waiter_snoc_None (c : Z) (cb : Callback)
    (q : list (Z * Callback)) :
  pop_waiter (Some c) q = None ->
  pop_waiter (Some c) (q ++ [(c, cb)]) = Some (cb, q).
Proof.
  induction q as [|[c0 cb0] q IH]; intros H.
  - cbn. destruct (decide (Some c = Some c)); [reflexivity|contradiction].
  - cbn in *. destruct (decide (Some c = Some c0)); [discriminate|].
    destruct (pop_waiter (Some c) q) as [[? ?]|]; [discriminate|].
    rewrite (IH eq_refl). reflexivity.
Qed.

Lemma addCommand_frame (frame : McuCommand) (w : World) :
  clock (addCommand frame w) = clock w
  /\ codec (addCommand frame w) = codec w.
Proof.
  unfold addCommand. destruct (pop_waiter _ _) as [[cb q']|]; [|done].
  unfold invoke.
  destruct (settle_frame (cb_promise cb) (Fulfilled (data frame))
              (clearTimeout (cb_timeout cb) (with_queue q' w)))
    as (-> & -> & _). done.
Qed.

Lemma addCommand_queue (frame : McuCommand) (w : World) :
  queue (addCommand frame w)
  = match pop_waiter (commandName frame) (queue w) with
    | Some (_, q') => q'
    | None => queue w
    end.
Proof.
  unfold addCommand. destruct (pop_waiter _ _) as [[cb q']|]; [|done].
  unfold invoke.
  destruct (settle_frame (cb_promise cb) (Fulfilled (data frame))
              (clearTimeout (cb_timeout cb) (with_queue q' w)))
    as (_ & _ & _ & -> & _). done.
Qed.

(** A frame for another command leaves the request open. *)
Lemma armed_addCommand_other (frame : McuCommand)
    (w : World) :
  commandName frame <> Some cmd ->
  armed p t d cmd w -> armed p t d cmd (addCommand frame w).
Proof.
  intros Hname Ha. unfold addCommand.
  destruct (pop_waiter _ _) as [[cb q']|] eqn:Hpop; [|exact Ha].
  destruct (pop_waiter_Some _ _ _ _ Hpop) as (c & Hc & Hin & Hsub).
  assert (Hcb : cb_promise cb <> p /\ cb_timeout cb <> t).
  { split; intros Heq.
    - destruct (ar_queue _ _ _ _ _ Ha c cb Hin (or_introl Heq)) as [_ ->].
      contradiction.
    - destruct (ar_queue _ _ _ _ _ Ha c cb Hin (or_intror Heq)) as [_ ->].
      contradiction. }
  destruct Hcb as [Hp Ht]. unfold invoke.
  apply armed_settle_other; [exact Hp|].
  apply armed_clearTimeout_other; [exact Ht|].
  revert Ha. apply armed_keep; try reflexivity.
  - intros t' d' p' H. left. exact H.
  - intros c' cb' H. left. apply Hsub, H.
Qed.

Lemma first_waiter_addCommand_other (frame : McuCommand)
    (w : World) :
  commandName frame <> Some cmd ->
  first_waiter cmd (addCommand frame w) = first_waiter cmd w.
Proof.
  intros Hname. unfold first_waiter. rewrite addCommand_queue.
  destruct (pop_waiter (commandName frame) (queue w)) as [[cb q']|] eqn:Hpop;
    [|reflexivity].
  exact (pop_waiter_commute _ _ _ _ _ Hname Hpop).
Qed.

(** A frame for the command of the request, when the request is the
    oldest waiter for it: the timer is cleared and the promise is
    resolved with the payload of the frame. *)
Lemma armed_addCommand_match (frame : McuCommand)
    (w : World) :
  commandName frame = Some cmd ->
  first_waiter cmd w = Some (mkCallback t p) ->
  armed p t d cmd w ->
  settled_once p (Fulfilled (data frame)) (clock w) (addCommand frame w)
  /\ timers (addCommand frame w) !! t = Some None.
Proof.
  intros Hname Hfirst Ha. unfold addCommand, first_waiter in *.
  rewrite Hname.
  destruct (pop_waiter (Some cmd) (queue w)) as [[cb q']|]; [|discriminate].
  cbn in Hfirst. injection Hfirst as ->. unfold invoke.
  cbn [cb_promise cb_timeout].
  destruct (settle_pending p (Fulfilled (data frame))
              (clearTimeout t (with_queue q' w)) (ar_promise _ _ _ _ _ Ha))
    as [Hp Hs].
  split; [split; [exact Hp|]|].
  - rewrite Hs.
    change (settlements p (clearTimeout t (with_queue q' w)))
      with (settlements p w).
    rewrite (ar_settled _ _ _ _ _ Ha). reflexivity.
  - destruct (settle_frame p (Fulfilled (data frame))
                (clearTimeout t (with_queue q' w))) as (_ & _ & -> & _).
    cbn. apply list_lookup_insert_eq.
    exact (lookup_lt_Some _ _ _ (ar_timer _ _ _ _ _ Ha)).
Qed.

Lemma settled_once_addCommand (s : Settlement) (at_ : Z)
    (frame : McuCommand) (w : World) :
  settled_once p s at_ w -> settled_once p s at_ (addCommand frame w).
Proof.
  intros Hd. unfold addCommand.
  destruct (pop_waiter _ _) as [[cb q']|]; [|exact Hd].
  unfold invoke. apply settled_once_settle.
  destruct Hd as [H1 H2]. split; assumption.
Qed.

(** *** A further correlated send *)

Lemma sendWithPromise_fields (w : World) (command : Z)
    (data : option (list Z)) (written : option unit) :
  let w' := (sendWithPromise w command data written).1 in
  promises w' = promises w ++ [None]
  /\ timers w' = timers w ++ [Some (clock w + 200, length (promises w))]
  /\ queue w'
     = queue w
       ++ [(command, mkCallback (length (timers w)) (length (promises w)))]
  /\ clock w' = clock w
  /\ settled w' = settled w
  /\ (sendWithPromise w command data written).2 = length (promises w).
Proof. destruct written as [[]|]; cbn; done. Qed.

Lemma armed_sendWithPromise (w : World) (command : Z)
    (data : option (list Z)) (written : option unit) :
  armed p t d cmd w ->
  armed p t d cmd (sendWithPromise w command data written).1.
Proof.
  intros Ha.
  destruct (sendWithPromise_fields w command data written)
    as (Hp & Ht & Hq & _ & Hs & _).
  pose proof (lookup_lt_Some _ _ _ (ar_promise _ _ _ _ _ Ha)) as Hlp.
  pose proof (lookup_lt_Some _ _ _ (ar_timer _ _ _ _ _ Ha)) as Hlt.
  revert Ha. apply armed_keep.
  - rewrite Hp. apply lookup_app_l. exact Hlp.
  - rewrite Ht. apply lookup_app_l. exact Hlt.
  - unfold settlements. rewrite Hs. reflexivity.
  - intros t' d' p' H. rewrite Ht in H.
    apply lookup_snoc_Some in H as [[_ H]|[_ H]]; [left; exact H|].
    right. injection H as _ <-. lia.
  - intros c cb H. rewrite Hq in H.
    apply elem_of_app in H as [H|H]; [left; exact H|].
    right. apply list_elem_of_singleton in H. injection H as _ ->.
    cbn. lia.
Qed.

Lemma settled_once_sendWithPromise (s : Settlement) (at_ : Z) (w : World)
    (command : Z) (data : option (list Z)) (written : option unit) :
  settled_once p s at_ w ->
  settled_once p s at_ (sendWithPromise w command data written).1.
Proof.
  destruct (sendWithPromise_fields w command data written)
    as (Hp & _ & _ & _ & Hs & _).
  apply settled_once_same; [|exact Hs].
  intros o Ho. rewrite Hp. apply lookup_app_l_Some, Ho.
Qed.

Lemma first_waiter_sendWithPromise (cb : Callback) (w : World)
    (command : Z) (data : option (list Z)) (written : option unit) :
  first_waiter cmd w = Some cb ->
  first_waiter cmd (sendWithPromise w command data written).1 = Some cb.
Proof.
  destruct (sendWithPromise_fields w command data written)
    as (_ & _ & Hq & _).
  unfold first_waiter. rewrite Hq. apply pop_waiter_snoc.
Qed.

(** *** Runs of events *)

Lemma step_clock (w : World) (e : Event) : clock w <= clock (step w e).
Proof.
  destruct e as [|frame|command data written]; cbn [step].
  - destruct (tick_frame w) as [-> _]. lia.
  - destruct (addCommand_frame frame w) as [-> _]. lia.
  - destruct (sendWithPromise_fields w command data written)
      as (_ & _ & _ & -> & _). lia.
Qed.

Lemma run_clock (events : list Event) (w : World) :
  clock w <= clock (run w events).
Proof.
  revert w. induction events as [|e events IH]; intros w; cbn; [lia|].
  pose proof (step_clock w e). pose proof (IH (step w e)).
  unfold run in *. lia.
Qed.

(** A settled promise stays as it is, whatever happens: later calls of
    [resolve] and [reject] on it are ignored. *)
Lemma settled_once_run (s : Settlement) (at_ : Z) (events : list Event)
    (w : World) :
  settled_once p s at_ w -> settled_once p s at_ (run w events).
Proof.
  revert w. induction events as [|e events IH]; intros w Hd; [exact Hd|].
  cbn. apply IH. destruct e as [|frame|command data written]; cbn [step].
  - apply tick_settled_once, Hd.
  - apply settled_once_addCommand, Hd.
  - apply settled_once_sendWithPromise, Hd.
Qed.





(** While no frame for its command is delivered, a pending request
    stays pending until the clock reaches its deadline, and is rejected at
    the deadline. *)
Lemma run_quiet (events : list Event) :
  forall w : World,
    pending p t d cmd w ->
    quiet cmd events ->
    (clock (run w events) < d /\ pending p t d cmd (run w events))
    \/ (d <= clock (run w events)
        /\ settled_once p TimeoutError d (run w events)).
Proof.
  induction events as [|e events IH]; intros w Hp Hq.
  - left. split; [exact (proj2 Hp)|exact Hp].
  - apply Forall_cons in Hq as [He Hq]. cbn [run fold_left].
    destruct e as [|frame|command data written]; cbn [step].
    + destruct (Z.lt_ge_cases (clock w + 1) d) as [Hlt|Hge].
      * apply IH; [apply tick_pending; assumption|exact Hq].
      * right. assert (Heq : clock w + 1 = d) by (destruct Hp; lia).
        pose proof (tick_due w Hp Heq) as Hd.
        split; [|apply settled_once_run, Hd].
        pose proof (run_clock events (tick w)) as Hc. unfold run in Hc.
        destruct (tick_frame w) as [Hclk _]. lia.
    + apply IH; [|exact Hq]. destruct Hp as [Ha Hc]. split.
      * apply armed_addCommand_other; assumption.
      * destruct (addCommand_frame frame w) as [-> _]. exact Hc.
    + apply IH; [|exact Hq]. destruct Hp as [Ha Hc]. split.
      * apply armed_sendWithPromise, Ha.
      * destruct (sendWithPromise_fields w command data written)
          as (_ & _ & _ & -> & _). exact Hc.
Qed.

End Request.

(** The world right after a correlated send: the request is pending
    with a deadline 200 ms ahead, and it is the oldest waiter for its
    command when there was none before. *)
Lemma sendWithPromise_pending (w : World) (command : Z)
    (data : option (list Z)) (written : option unit) :
  well_formed w ->
  let '(w', p) := sendWithPromise w command data written in
  p = length (promises w)
  /\ clock w' = clock w
  /\ pending p (length (timers w)) (clock w + 200) command w'
  /\ (first_waiter command w = None ->
      first_waiter command w'
      = Some (mkCallback (length (timers w)) p)).
Proof.
  intros [Wt Wq Ws].
  pose proof (sendWithPromise_fields w command data written) as H.
  destruct (sendWithPromise w command data written) as [w' p].
  cbn [fst snd] in H. destruct H as (Hp & Ht & Hq & Hc & Hs & ->).
  split; [reflexivity|]. split; [exact Hc|]. split; [split; [split|]|].
  - rewrite Hp. apply list_lookup_middle. reflexivity.
  - rewrite Ht. apply list_lookup_middle. reflexivity.
  - unfold settlements. rewrite Hs. apply elem_of_nil_inv. intros e He.
    apply list_elem_of_filter in He as [He Hin].
    pose proof (Ws e Hin). lia.
  - intros t' d' p' H ->. rewrite Ht in H.
    apply lookup_snoc_Some in H as [[_ H]|[H _]]; [|exact H].
    pose proof (Wt t' d' _ H). lia.
  - intros c cb H Hor. rewrite Hq in H.
    apply elem_of_app in H as [H|H].
    + destruct (Wq c cb H) as [H1 H2]. destruct Hor; lia.
    + apply list_elem_of_singleton in H. injection H as -> ->. done.
  - rewrite Hc. lia.
  - intros Hnone. unfold first_waiter in *. rewrite Hq.
    destruct (pop_waiter (Some command) (queue w)) as [[? ?]|] eqn:Hpop;
      [discriminate|].
    rewrite (pop_waiter_snoc_None _ _ _ Hpop). reflexivity.
Qed.

(** The request stays the oldest waiter of its command while no frame
    for the command is delivered. *)
Lemma first_waiter_run (cmd : Z) (cb : Callback) (events : list Event) :
  forall w : World,
    first_waiter cmd w = Some cb ->
    quiet cmd events ->
    first_waiter cmd (run w events) = Some cb.
Proof.
  induction events as [|e events IH]; intros w Hf Hq; [exact Hf|].
  apply Forall_cons in Hq as [He Hq]. cbn [run fold_left].
  apply IH; [|exact Hq].
  destruct e as [|frame|command data written]; cbn [step].
  - unfold first_waiter. destruct (tick_frame w) as (_ & -> & _). exact Hf.
  - rewrite first_waiter_addCommand_other; assumption.
  - apply first_waiter_sendWithPromise, Hf.
Qed.

(** A response received as bytes by a parser at stage 0 is a frame
    delivered to the queue. *)
Lemma receive_response (w : World) (cmd : Z) (payload : list Z) :
  state (codec w) = 0 ->
  messageLengthReceived (codec w) = 0%nat ->
  0 <= cmd <= 255 ->
  Z.of_nat (length payload) <= 255 ->
  Forall JS.u8 payload ->
  receive w (as_response (encodeV1 cmd payload))
  = addCommand {| commandName := Some cmd; data := payload |}
      (with_codec
         (clear_scratch
            (with_commandCount (commandCount (codec w) - 1) (codec w))) w).
Proof.
  intros Hst Hrcv Hcmd Hlen Hp. unfold receive, read.
  rewrite processResponse_valid by assumption. reflexivity.
Qed.

(** *** Well-formed worlds *)

Lemma well_formed_new : well_formed World_new.
Proof.
  split; cbn.
  - intros t d p H. discriminate H.
  - intros c cb H. apply elem_of_nil in H. contradiction.
  - intros e H. apply elem_of_nil in H. contradiction.
Qed.









(** ** The claim on correlated sends *)




(** A request that timed out stays registered in the queue: the next
    frame for its command goes to it and is dropped by its settled
    promise, so a later request for the same command does not see that
    frame. *)
Example timed_out_waiter_stays_registered :
  let frame := {| commandName := Some 1; data := [7] |} in
  let w1 := (sendWithPromise World_new 1 None (Some tt)).1 in
  let w2 := run w1 (replicate 200 Tick) in
  let w3 := (sendWithPromise w2 1 None (Some tt)).1 in
  let w4 := addCommand frame w3 in
  promises w2 !! 0%nat = Some (Some TimeoutError)
  /\ first_waiter 1 w2 = Some (mkCallback 0 0)
  /\ promises w4 !! 0%nat = Some (Some TimeoutError)
  /\ promises w4 !! 1%nat = Some None
  /\ first_waiter 1 w4 = Some (mkCallback 1 1).
Proof. vm_compute. repeat split. Qed.

(** * Further properties of the codec *)

(** ** Checksum engine *)

Lemma crc8_loop_u8 (data : list Z) (n i : nat) (crc : Z) :
  JS.u8 crc -> JS.u8 (crc8_loop data i n crc).
Proof.
  revert i crc. induction n as [|n IH]; intros i crc Hc; [exact Hc|].
  cbn [crc8_loop]. apply IH. rewrite crc8_rounds_iter. cbn [Nat.iter].
  apply round_u8.
Qed.

(** The checksum is a byte, whatever the array holds and whatever the
    range is, also past the end of the array. *)
Theorem crc8DvbS2Data_byte (data : list Z) (start end_ : nat) :
  JS.u8 (crc8DvbS2Data data start end_).
Proof. apply crc8_loop_u8. unfold JS.u8. lia. Qed.

Lemma crc8_loop_ext (data1 data2 : list Z) (n i : nat) (crc : Z) :
  (forall j, (i <= j < i + n)%nat ->
     JS.num (JS.get data1 j) = JS.num (JS.get data2 j)) ->
  crc8_loop data1 i n crc = crc8_loop data2 i n crc.
Proof.
  revert i crc. induction n as [|n IH]; intros i crc H; [reflexivity|].
  cbn [crc8_loop]. rewrite (H i) by lia.
  apply IH. intros j Hj. apply H. lia.
Qed.

(** The checksum reads the elements of the range and nothing else: two
    arrays that agree on the range have the same checksum. *)
Theorem crc8DvbS2Data_local (data1 data2 : list Z) (start end_ : nat) :
  (forall j, (start <= j < end_)%nat -> data1 !! j = data2 !! j) ->
  crc8DvbS2Data data1 start end_ = crc8DvbS2Data data2 start end_.
Proof.
  intros H. unfold crc8DvbS2Data. apply crc8_loop_ext.
  intros j Hj. unfold JS.get. rewrite H by lia. reflexivity.
Qed.

Lemma crc8DvbS2Data_local_witness :
  (forall j, (1 <= j < 3)%nat ->
     ([9; 1; 2; 9] : list Z) !! j = ([7; 1; 2; 8] : list Z) !! j)
  /\ crc8DvbS2Data [9; 1; 2; 9] 1 3 = crc8DvbS2Data [7; 1; 2; 8] 1 3.
Proof.
  assert (H : forall j, (1 <= j < 3)%nat ->
            ([9; 1; 2; 9] : list Z) !! j = ([7; 1; 2; 8] : list Z) !! j).
  { intros j Hj. destruct j as [|[|[|j]]]; try lia; reflexivity. }
  split; [exact H|]. exact (crc8DvbS2Data_local _ _ 1%nat 3%nat H).
Defined.

(** An element past the end of the array counts as a zero byte. *)
Theorem crc8DvbS2Data_past_end (data : list Z) (start end_ : nat) :
  (length data <= end_)%nat ->
  crc8DvbS2Data data start end_
  = crc8DvbS2Data (data ++ replicate (end_ - length data) 0) start end_.
Proof.
  intros Hlen. unfold crc8DvbS2Data. apply crc8_loop_ext.
  intros j Hj. unfold JS.get.
  destruct (decide (j < length data)%nat) as [Hlt|Hge].
  - rewrite lookup_app_l by exact Hlt. reflexivity.
  - rewrite (lookup_ge_None_2 data) by lia.
    rewrite lookup_app_r by lia.
    destruct (replicate (end_ - length data) 0 !! (j - length data)%nat)
      as [x|] eqn:Hx; [|reflexivity].
    apply lookup_replicate in Hx as [-> _]. reflexivity.
Qed.

Lemma crc8DvbS2Data_past_end_witness :
  (length check_input <= 11)%nat
  /\ crc8DvbS2Data check_input 0 11
     = crc8DvbS2Data (check_input ++ replicate (11 - length check_input) 0)
         0 11.
Proof.
  assert (H : (length check_input <= 11)%nat) by (cbn; lia).
  split; [exact H|]. exact (crc8DvbS2Data_past_end check_input 0 11 H).
Defined.

Lemma rounds8_inj (x y : Z) :
  JS.u8 x -> JS.u8 y ->
  Nat.iter 8 Reference.round x = Nat.iter 8 Reference.round y -> x = y.
Proof.
  assert (Hall :
    forallb (fun a =>
      forallb (fun b =>
        implb (Nat.iter 8 Reference.round a =? Nat.iter 8 Reference.round b)
              (a =? b)) (seqZ 0 256)) (seqZ 0 256) = true)
    by (vm_compute; reflexivity).
  intros Hx Hy Heq. unfold JS.u8 in *.
  rewrite forallb_forall in Hall.
  assert (Hinx : In x (seqZ 0 256))
    by (apply list_elem_of_In, elem_of_seqZ; lia).
  assert (Hiny : In y (seqZ 0 256))
    by (apply list_elem_of_In, elem_of_seqZ; lia).
  specialize (Hall x Hinx). rewrite forallb_forall in Hall.
  specialize (Hall y Hiny). rewrite Heq, Z.eqb_refl in Hall.
  apply Z.eqb_eq. exact Hall.
Qed.

Lemma lxor_cancel_l (a b x : Z) : Z.lxor x a = Z.lxor x b -> a = b.
Proof. rewrite !(Z.lxor_comm x). apply lxor_cancel_r. Qed.

Lemma update_inj_byte (c b b' : Z) :
  JS.u8 c -> JS.u8 b -> JS.u8 b' ->
  Reference.update c b = Reference.update c b' -> b = b'.
Proof.
  intros Hc Hb Hb' H. unfold Reference.update in H.
  apply rounds8_inj in H; [|apply lxor_u8; assumption..].
  exact (lxor_cancel_l _ _ _ H).
Qed.

Lemma update_inj_acc (c c' b : Z) :
  JS.u8 c -> JS.u8 c' -> JS.u8 b ->
  Reference.update c b = Reference.update c' b -> c = c'.
Proof.
  intros Hc Hc' Hb H. unfold Reference.update in H.
  apply rounds8_inj in H; [|apply lxor_u8; assumption..].
  exact (lxor_cancel_r _ _ _ H).
Qed.

Lemma fold_update_u8 (l : list Z) (c : Z) :
  JS.u8 c -> JS.u8 (fold_left Reference.update l c).
Proof.
  revert c. induction l as [|b l IH]; intros c Hc; [exact Hc|].
  cbn. apply IH, update_u8.
Qed.

Lemma fold_update_inj (l : list Z) (c c' : Z) :
  Forall JS.u8 l -> JS.u8 c -> JS.u8 c' ->
  fold_left Reference.update l c = fold_left Reference.update l c' ->
  c = c'.
Proof.
  intros Hl. revert c c'.
  induction Hl as [|b l Hb _ IH]; intros c c' Hc Hc' H; [exact H|].
  cbn in H. apply IH in H; [|apply update_u8..].
  exact (update_inj_acc _ _ _ Hc Hc' Hb H).
Qed.

(** The CRC detects every change of a single byte in the range. *)
Theorem crc8DvbS2Data_detects_byte (data : list Z) (start end_ i : nat)
    (b b' : Z) :
  Forall JS.u8 data ->
  (start <= i < end_)%nat -> (end_ <= length data)%nat ->
  data !! i = Some b ->
  JS.u8 b' -> b' <> b ->
  crc8DvbS2Data (<[i := b']> data) start end_
  <> crc8DvbS2Data data start end_.
Proof.
  intros Hdata Hi Hend Hb Hb' Hne.
  unfold crc8DvbS2Data.
  rewrite !crc8_loop_fold by (rewrite ?length_insert; lia).
  rewrite drop_insert_ge, take_insert_lt by lia.
  assert (Hr : take (end_ - start) (drop start data) !! (i - start)%nat
               = Some b).
  { rewrite lookup_take_lt, lookup_drop by lia.
    replace (start + (i - start))%nat with i by lia. exact Hb. }
  assert (Hu : Forall JS.u8 (take (end_ - start) (drop start data)))
    by (apply Forall_take, Forall_drop, Hdata).
  revert Hr Hu. generalize (take (end_ - start) (drop start data)) as l.
  generalize (i - start)%nat as k. intros k l Hr Hu.
  pose proof (take_drop_middle l k b Hr) as E.
  pose proof (insert_take_drop l k b' (lookup_lt_Some _ _ _ Hr)) as E'.
  revert E E'. generalize (take k l) (drop (S k) l). intros l1 l2 E E'.
  rewrite E'. clear E' Hr. subst l.
  apply Forall_app in Hu as [Hu1 Hu2]. apply Forall_cons in Hu2 as [Hub Hu2].
  rewrite !fold_left_app. cbn [fold_left]. intros H.
  apply fold_update_inj in H; [|exact Hu2|apply update_u8..].
  apply update_inj_byte in H;
    [contradiction|apply fold_update_u8; unfold JS.u8; lia|assumption..].
Qed.

Lemma crc8DvbS2Data_detects_byte_witness :
  Forall JS.u8 check_input
  /\ (0 <= 4 < 9)%nat /\ (9 <= length check_input)%nat
  /\ check_input !! 4%nat = Some 53
  /\ JS.u8 0 /\ 0 <> 53
  /\ crc8DvbS2Data (<[4%nat := 0]> check_input) 0 9
     <> crc8DvbS2Data check_input 0 9.
Proof.
  assert (Hd : Forall JS.u8 check_input)
    by (repeat constructor; unfold JS.u8; lia).
  assert (Hi : (0 <= 4 < 9)%nat) by lia.
  assert (He : (9 <= length check_input)%nat) by (cbn; lia).
  assert (Hb : check_input !! 4%nat = Some 53) by reflexivity.
  assert (Hb' : JS.u8 0) by (unfold JS.u8; lia).
  assert (Hne : 0 <> 53) by discriminate.
  repeat (split; [assumption|]).
  exact (crc8DvbS2Data_detects_byte check_input 0 9 4 53 0
           Hd Hi He Hb Hb' Hne).
Defined.

Lemma update_self (c : Z) : Reference.update c c = 0.
Proof. unfold Reference.update. rewrite Z.lxor_nilpotent. reflexivity. Qed.

(** ** Frame encoder *)

(** The CRC over a V2 frame from the flag byte through the checksum byte
    is 0: a receiver can check a frame without locating the checksum. *)
Theorem encodeV2_residue (command : Z) (data : list Z) :
  crc8DvbS2Data (encodeV2 command data) 3 (9 + length data) = 0.
Proof.
  unfold crc8DvbS2Data. rewrite encodeV2_closed.
  rewrite crc8_loop_fold
    by (rewrite !length_app, length_fmap; unfold v2_covered_header;
        cbn [length]; lia).
  replace (9 + length data - 3)%nat with (6 + length data)%nat by lia.
  set (covered := v2_covered_header command (length data)
                  ++ (JS.to_u8 <$> data)).
  change (drop 3 ([36; 88; 60] ++ v2_covered_header command (length data)
                  ++ (JS.to_u8 <$> data)
                  ++ [JS.to_u8 (Reference.crc8DvbS2 covered)]))
    with (v2_covered_header command (length data)
          ++ (JS.to_u8 <$> data)
          ++ [JS.to_u8 (Reference.crc8DvbS2 covered)]).
  rewrite app_assoc. fold covered.
  rewrite take_ge
    by (rewrite length_app; unfold covered, v2_covered_header;
        rewrite length_app, length_fmap; cbn [length]; lia).
  rewrite fold_left_app. cbn [fold_left].
  rewrite (to_u8_small _ (crc8DvbS2_u8 covered)).
  apply update_self.
Qed.

(** The XOR over a V1 frame from the length byte through the checksum
    byte is 0. *)
Theorem encodeV1_residue (command : Z) (data : list Z) :
  Reference.xorChecksum (drop 3 (encodeV1 command data)) = 0.
Proof.
  rewrite encodeV1_closed. cbn [app drop].
  unfold Reference.xorChecksum. cbn [fold_left].
  rewrite fold_left_app. cbn [fold_left]. rewrite Z.lxor_0_l.
  set (x := fold_left Z.lxor (JS.to_u8 <$> data)
              (Z.lxor (JS.to_u8 (Z.of_nat (length data)))
                      (JS.to_u8 command))).
  assert (Hx : JS.u8 x).
  { apply fold_lxor_u8.
    - apply Forall_fmap, Forall_true. intros y. apply to_u8_u8.
    - apply lxor_u8; apply to_u8_u8. }
  rewrite (to_u8_small x Hx). apply Z.lxor_nilpotent.
Qed.

(** The encoders keep the low 8 bits (V1) and the low 16 bits (V2) of the
    command code: codes that differ by a multiple of 256, or of 65536,
    give the same frame. *)
Theorem encoders_wrap_command (command k : Z) (data : list Z) :
  encodeV1 (command + 256 * k) data = encodeV1 command data
  /\ encodeV2 (command + 65536 * k) data = encodeV2 command data.
Proof.
  split.
  - rewrite !encodeV1_closed.
    assert (H : JS.to_u8 (command + 256 * k) = JS.to_u8 command).
    { unfold JS.to_u8. rewrite (Z.mul_comm 256 k). apply Z_mod_plus_full. }
    rewrite H. reflexivity.
  - rewrite !encodeV2_closed. unfold v2_covered_header.
    assert (H1 : Z.land (command + 65536 * k) 0xFF = Z.land command 0xFF).
    { rewrite !land_255.
      replace (command + 65536 * k) with (command + (256 * k) * 256) by lia.
      apply Z_mod_plus_full. }
    assert (H2 : Z.land (Z.shiftr (command + 65536 * k) 8) 0xFF
                 = Z.land (Z.shiftr command 8) 0xFF).
    { rewrite !land_255, !Z.shiftr_div_pow2 by lia. change (2 ^ 8) with 256.
      replace (command + 65536 * k) with (command + (256 * k) * 256) by lia.
      rewrite (Z_div_plus_full command (256 * k) 256) by lia.
      rewrite (Z.mul_comm 256 k). apply Z_mod_plus_full. }
    rewrite H1, H2. reflexivity.
Qed.

(** [encodeV2] has no check of the payload length either: for a payload
    longer than 65535 bytes the two length bytes hold the length modulo
    65536, which is not the length. *)
Theorem encodeV2_oversized_truncates (command : Z) (data : list Z) :
  65535 < Z.of_nat (length data) ->
  exists lo hi : Z,
    encodeV2 command data !! 6%nat = Some lo
    /\ encodeV2 command data !! 7%nat = Some hi
    /\ lo + 256 * hi = Z.of_nat (length data) mod 65536
    /\ lo + 256 * hi <> Z.of_nat (length data)
    /\ length (encodeV2 command data) = (9 + length data)%nat.
Proof.
  intros Hlen. rewrite encodeV2_closed. unfold v2_covered_header.
  set (n := Z.of_nat (length data)) in *.
  exists (JS.to_u8 (Z.land n 0xFF)),
         (JS.to_u8 (Z.land (Z.shiftr n 8) 0xFF)).
  split; [reflexivity|]. split; [reflexivity|].
  assert (Hsum : JS.to_u8 (Z.land n 0xFF)
                 + 256 * JS.to_u8 (Z.land (Z.shiftr n 8) 0xFF)
                 = n mod 65536).
  { rewrite !land_255, Z.shiftr_div_pow2 by lia. change (2 ^ 8) with 256.
    unfold JS.to_u8. rewrite !Z.mod_mod by lia.
    change 65536 with (256 * 256).
    rewrite Z.rem_mul_r by lia. reflexivity. }
  split; [exact Hsum|]. split.
  - rewrite Hsum.
    pose proof (Z.mod_pos_bound n 65536 ltac:(lia)). lia.
  - rewrite !length_app, length_fmap. cbn [length]. lia.
Qed.

Lemma encodeV2_oversized_truncates_witness :
  65535 < Z.of_nat (length (replicate (Z.to_nat 65536) 0))
  /\ exists lo hi : Z,
       encodeV2 0x3003 (replicate (Z.to_nat 65536) 0) !! 6%nat = Some lo
       /\ encodeV2 0x3003 (replicate (Z.to_nat 65536) 0) !! 7%nat = Some hi
       /\ lo + 256 * hi
          = Z.of_nat (length (replicate (Z.to_nat 65536) 0)) mod 65536
       /\ lo + 256 * hi
          <> Z.of_nat (length (replicate (Z.to_nat 65536) 0))
       /\ length (encodeV2 0x3003 (replicate (Z.to_nat 65536) 0))
          = (9 + length (replicate (Z.to_nat 65536) 0))%nat.
Proof.
  assert (H : 65535 < Z.of_nat (length (replicate (Z.to_nat 65536) 0)))
    by (rewrite length_replicate; lia).
  split; [exact H|].
  exact (encodeV2_oversized_truncates 0x3003 _ H).
Defined.

(** ** The parser *)

Lemma processChar_skips (m : Msp) (char : Z) :
  state m = 0 -> char <> ascii "$" -> processChar m char = (m, []).
Proof.
  intros Hst Hne. unfold processChar. rewrite Hst.
  destruct (Z.eqb_spec char (ascii "$")); [contradiction|reflexivity].
Qed.

Lemma processResponse_noise (m : Msp) (noise : list Z) :
  state m = 0 -> ascii "$" ∉ noise -> processResponse m noise = (m, []).
Proof.
  intros Hst. induction noise as [|char noise IH]; intros Hn; [reflexivity|].
  apply not_elem_of_cons in Hn as [Hne Hn].
  cbn [processResponse]. rewrite processChar_skips by auto.
  rewrite IH by exact Hn. reflexivity.
Qed.

(** Outside a frame the parser ignores every byte up to the next '$':
    nothing is emitted, nothing is logged, no field changes, and what
    follows is parsed as if the ignored bytes had not been there. *)
Theorem processResponse_skips_noise (m : Msp) (noise rest : list Z) :
  state m = 0 -> ascii "$" ∉ noise ->
  processResponse m noise = (m, [])
  /\ processResponse m (noise ++ rest) = processResponse m rest.
Proof.
  intros Hst Hn. pose proof (processResponse_noise m noise Hst Hn) as H.
  split; [exact H|]. rewrite processResponse_app, H.
  destruct (processResponse m rest). reflexivity.
Qed.

Lemma processResponse_skips_noise_witness :
  state Msp_new = 0 /\ (ascii "$" ∉ [0; 77; 62; 255])
  /\ processResponse Msp_new [0; 77; 62; 255] = (Msp_new, []).
Proof.
  assert (Hn : ascii "$" ∉ [0; 77; 62; 255]).
  { intros H. repeat (apply elem_of_cons in H as [H|H]; [discriminate H|]).
    apply elem_of_nil in H. exact H. }
  split; [reflexivity|]. split; [exact Hn|].
  exact (proj1 (processResponse_skips_noise Msp_new _ [] eq_refl Hn)).
Defined.

(** The parser does not tell the two directions apart: the request
    frame of [encodeV1], as it is, is decoded like a response. *)
Theorem processResponse_accepts_requests (m : Msp) (cmd : Z)
    (payload : list Z) :
  state m = 0 ->
  messageLengthReceived m = 0%nat ->
  0 <= cmd <= 255 ->
  Z.of_nat (length payload) <= 255 ->
  Forall JS.u8 payload ->
  processResponse m (encodeV1 cmd payload)
  = (clear_scratch (with_commandCount (commandCount m - 1) m),
     [AddCommand {| commandName := Some cmd; data := payload |}]).
Proof.
  intros Hst Hrcv Hcmd Hlen Hp.
  assert (Hl : JS.u8 (Z.of_nat (length payload))) by (unfold JS.u8; lia).
  assert (Hc : JS.u8 cmd) by (unfold JS.u8; lia).
  rewrite encodeV1_closed.
  rewrite (fmap_to_u8_small payload Hp), (to_u8_small _ Hl),
    (to_u8_small _ Hc).
  rewrite to_u8_small by (apply fold_lxor_u8; [|apply lxor_u8]; assumption).
  change [36; 77; 60; Z.of_nat (length payload); cmd]
    with [ascii "$"; ascii "M"; ascii "<"; Z.of_nat (length payload); cmd].
  rewrite processResponse_frame by (try left; auto).
  rewrite Z.eqb_refl. reflexivity.
Qed.

Lemma processResponse_accepts_requests_witness :
  state Msp_new = 0 /\ messageLengthReceived Msp_new = 0%nat
  /\ 0 <= 255 <= 255 /\ Z.of_nat (length [36; 77]) <= 255
  /\ Forall JS.u8 [36; 77]
  /\ processResponse Msp_new (encodeV1 255 [36; 77])
     = (clear_scratch (with_commandCount (commandCount Msp_new - 1) Msp_new),
        [AddCommand {| commandName := Some 255; data := [36; 77] |}]).
Proof.
  assert (Hc : 0 <= 255 <= 255) by lia.
  assert (Hl : Z.of_nat (length [36; 77]) <= 255) by (cbn; lia).
  assert (Hd : Forall JS.u8 [36; 77])
    by (repeat constructor; unfold JS.u8; lia).
  split; [reflexivity|]. split; [reflexivity|]. split; [exact Hc|].
  split; [exact Hl|]. split; [exact Hd|].
  exact (processResponse_accepts_requests Msp_new 255 [36; 77]
           eq_refl eq_refl Hc Hl Hd).
Defined.

Lemma frames_app (e1 e2 : list Effect) :
  frames (e1 ++ e2) = frames e1 ++ frames e2.
Proof. unfold frames. apply omap_app. Qed.

Lemma errors_app (e1 e2 : list Effect) :
  errors (e1 ++ e2) = errors e1 ++ errors e2.
Proof. unfold errors. apply omap_app. Qed.

Lemma parser_ok_stage (m : Msp) : parser_ok m -> 0 <= state m <= 6.
Proof.
  destruct m as [cc st buf chk exp rcv c0]. unfold parser_ok.
  cbn [state]. stage_cases st; intros H; try contradiction; lia.
Qed.

Lemma processChar_ok (m : Msp) (char : Z) :
  parser_ok m -> JS.u8 char ->
  parser_ok (processChar m char).1
  /\ Forall frame_ok (frames (processChar m char).2).
Proof.
  intros Hok Hc. pose proof (parser_ok_stage m Hok) as Hst.
  destruct m as [cc st buf chk exp rcv c0]. cbn [state] in Hst.
  assert (Hcases : st = 0 \/ st = 1 \/ st = 2 \/ st = 3 \/ st = 4
                   \/ st = 5 \/ st = 6) by lia.
  clear Hst. unfold parser_ok, processChar in *.
  cbn [state messageBuffer messageChecksum messageLengthExpected
       messageLengthReceived command commandCount] in *.
  destruct Hcases as [->|[->|[->|[->|[->|[->| ->]]]]]]; stage_arith.
  - destruct (char =? ascii "$"); cbn; auto.
  - destruct (char =? ascii "M"); cbn; auto.
  - destruct ((char =? ascii "<") || (char =? ascii ">")); cbn; auto.
  - cbn. split; [|constructor]. split; [exact Hok|].
    split; [exact Hc|]. unfold JS.alloc. rewrite length_replicate.
    split; [reflexivity|]. apply Forall_replicate. unfold JS.u8. lia.
  - destruct Hok as (Hr & He & Hl & Hb). subst rcv.
    destruct (Z.ltb_spec 0 exp); cbn; (split; [|constructor]).
    + split; [auto|]. split; [exists char; auto|lia].
    + split; [auto|]. exists char; auto.
  - destruct Hok as ((He & Hl & Hb) & Hn & Hr).
    assert (Hb' : Forall JS.u8 (JS.set buf rcv char))
      by (apply Forall_insert; [exact Hb|apply to_u8_u8]).
    assert (Hl' : length (JS.set buf rcv char) = Z.to_nat exp)
      by (unfold JS.set; rewrite length_insert; exact Hl).
    destruct (Z.leb_spec exp (Z.of_nat (S rcv))); cbn;
      (split; [|constructor]).
    + split; [auto|exact Hn].
    + split; [auto|]. split; [exact Hn|lia].
  - destruct Hok as ((He & Hl & Hb) & Hn).
    destruct (chk =? char); cbn; (split; [reflexivity|]);
      [|constructor].
    constructor; [|constructor].
    split; [exact Hn|]. cbn. unfold JS.u8 in He. split; [lia|exact Hb].
Qed.

Lemma parser_ok_new : parser_ok Msp_new.
Proof. reflexivity. Qed.

Lemma processResponse_invariant (m : Msp) (bytes : list Z) :
  parser_ok m -> Forall JS.u8 bytes ->
  parser_ok (processResponse m bytes).1
  /\ Forall frame_ok (frames (processResponse m bytes).2).
Proof.
  intros Hok Hb. revert m Hok.
  induction Hb as [|char bytes Hc _ IH]; intros m Hok.
  - split; [exact Hok|constructor].
  - cbn [processResponse].
    destruct (processChar_ok m char Hok Hc) as [Hok1 Hf1].
    destruct (processChar m char) as [m1 e1]. cbn [fst snd] in *.
    destruct (IH m1 Hok1) as [Hok2 Hf2].
    destruct (processResponse m1 bytes) as [m2 e2]. cbn [fst snd] in *.
    split; [exact Hok2|]. rewrite frames_app. apply Forall_app. auto.
Qed.

(** Fed bytes, a parser that started as a new instance stays in one of
    its seven stages with a payload buffer of the announced size, and
    every frame it emits has a one-byte command and a payload of at
    most 255 bytes. *)
Theorem processResponse_ok (m : Msp) (bytes : list Z) :
  parser_ok m -> Forall JS.u8 bytes ->
  parser_ok (processResponse m bytes).1
  /\ 0 <= state (processResponse m bytes).1 <= 6
  /\ Forall frame_ok (frames (processResponse m bytes).2).
Proof.
  intros Hok Hb.
  destruct (processResponse_invariant m bytes Hok Hb) as [Hok' Hf].
  split; [exact Hok'|]. split; [|exact Hf].
  apply parser_ok_stage, Hok'.
Qed.

Lemma processResponse_ok_witness :
  parser_ok Msp_new /\ Forall JS.u8 [36; 77; 62; 1; 9; 4]
  /\ parser_ok (processResponse Msp_new [36; 77; 62; 1; 9; 4]).1
  /\ 0 <= state (processResponse Msp_new [36; 77; 62; 1; 9; 4]).1 <= 6
  /\ Forall frame_ok
       (frames (processResponse Msp_new [36; 77; 62; 1; 9; 4]).2).
Proof.
  assert (Hb : Forall JS.u8 [36; 77; 62; 1; 9; 4])
    by (repeat constructor; unfold JS.u8; lia).
  split; [exact parser_ok_new|]. split; [exact Hb|].
  exact (processResponse_ok Msp_new _ parser_ok_new Hb).
Defined.

Lemma processChar_account (m : Msp) (char : Z) :
  let '(m', effects) := processChar m char in
  commandCount m' = commandCount m - Z.of_nat (length (frames effects))
  /\ (forall bufferOut, SerialWrite bufferOut ∉ effects)
  /\ (forall msg, msg ∈ errors effects ->
      msg = UnknownDirection char
      /\ char <> ascii "<" /\ char <> ascii ">").
Proof.
  destruct m as [cc st buf chk exp rcv c0]. unfold processChar.
  cbn [state messageBuffer messageChecksum messageLengthExpected
       messageLengthReceived command commandCount].
  assert (Hnil : forall cc',
            cc' = cc' - Z.of_nat (length (frames []))
            /\ (forall bufferOut, SerialWrite bufferOut ∉ [])
            /\ (forall msg, msg ∈ errors [] ->
                msg = UnknownDirection char
                /\ char <> ascii "<" /\ char <> ascii ">")).
  { intros cc'. cbn. split; [lia|]. split; intros x H;
      apply elem_of_nil in H; contradiction. }
  stage_cases st; cbn [with_state clear_scratch with_commandCount
                       commandCount];
    repeat match goal with
      | |- context [if ?b then _ else _] => destruct b eqn:?
      end; try apply Hnil.
  - (* stage 6, checksum equal *)
    cbn. split; [lia|]. split.
    + intros b H. apply list_elem_of_singleton in H. discriminate.
    + intros msg H. apply elem_of_nil in H. contradiction.
  - (* stage 2, unknown direction *)
    cbn. split; [lia|]. split.
    + intros b H. apply list_elem_of_singleton in H. discriminate.
    + intros msg H. apply list_elem_of_singleton in H as ->.
      split; [reflexivity|].
      apply orb_false_iff in Heqb as [H1 H2].
      apply Z.eqb_neq in H1, H2. auto.
Qed.

(** Whatever the state and the bytes: the in-flight counter goes down
    by exactly the number of frames emitted, the parser never writes to
    the transport, and the only error it logs is an unknown direction,
    for a byte that is neither '<' nor '>'. *)
Theorem processResponse_account (m : Msp) (bytes : list Z) :
  let '(m', effects) := processResponse m bytes in
  commandCount m' = commandCount m - Z.of_nat (length (frames effects))
  /\ (forall bufferOut, SerialWrite bufferOut ∉ effects)
  /\ (forall msg, msg ∈ errors effects ->
      exists char, char ∈ bytes /\ msg = UnknownDirection char
                   /\ char <> ascii "<" /\ char <> ascii ">").
Proof.
  revert m. induction bytes as [|char bytes IH]; intros m.
  - cbn. split; [lia|]. split; intros x H; apply elem_of_nil in H;
      contradiction.
  - cbn [processResponse].
    pose proof (processChar_account m char) as H1.
    destruct (processChar m char) as [m1 e1].
    pose proof (IH m1) as H2.
    destruct (processResponse m1 bytes) as [m2 e2].
    destruct H1 as (C1 & W1 & E1), H2 as (C2 & W2 & E2).
    split; [|split].
    + rewrite frames_app, length_app. lia.
    + intros b H. apply elem_of_app in H as [H|H];
        [exact (W1 b H)|exact (W2 b H)].
    + intros msg H. rewrite errors_app in H.
      apply elem_of_app in H as [H|H].
      * destruct (E1 msg H) as (-> & Hd). exists char.
        split; [apply elem_of_cons; left; reflexivity|]. split; tauto.
      * destruct (E2 msg H) as (c & Hin & Hc). exists c.
        split; [apply elem_of_cons; right; exact Hin|exact Hc].
Qed.

(** A stream of valid responses, each behind line noise without '$',
    is decoded into exactly their frames, in order, with no error
    logged; the parser ends cleared and the in-flight counter is down by
    the number of frames. *)
Theorem processResponse_stream (items : list (list Z * Z * list Z)) :
  forall m : Msp,
    state m = 0 ->
    messageLengthReceived m = 0%nat ->
    Forall item_ok items ->
    processResponse m (response_stream items)
    = (if decide (items = []) then m
       else clear_scratch
              (with_commandCount
                 (commandCount m - Z.of_nat (length items)) m),
       AddCommand <$> (frame_of <$> items)).
Proof.
  induction items as [|[[noise cmd] payload] items IH];
    intros m Hst Hrcv Hok; [reflexivity|].
  apply Forall_cons in Hok as [(Hn & Hc & Hl & Hp) Hok]. cbn in Hn, Hc, Hl, Hp.
  unfold response_stream in *. cbn [fmap list_fmap concat fst snd].
  rewrite <- app_assoc, processResponse_app.
  rewrite (processResponse_noise m noise Hst Hn).
  rewrite processResponse_app.
  rewrite (processResponse_valid m cmd payload) by assumption.
  rewrite (IH (clear_scratch (with_commandCount (commandCount m - 1) m)))
    by (auto; reflexivity).
  destruct (decide (items = [])) as [->|Hne].
  - reflexivity.
  - cbn [fmap list_fmap app length]. f_equal.
    unfold clear_scratch, with_commandCount. cbn [commandCount].
    f_equal. lia.
Qed.

Lemma processResponse_stream_witness :
  state Msp_new = 0 /\ messageLengthReceived Msp_new = 0%nat
  /\ Forall item_ok [([0; 77], 5, [1; 2]); ([], 36, [])]
  /\ frames (processResponse Msp_new
               (response_stream [([0; 77], 5, [1; 2]); ([], 36, [])])).2
     = [{| commandName := Some 5; data := [1; 2] |};
        {| commandName := Some 36; data := [] |}].
Proof.
  assert (Hok : Forall item_ok [([0; 77], 5, [1; 2]); ([], 36, [])]).
  { repeat constructor; cbn; unfold JS.u8; try lia.
    - intros H. repeat (apply elem_of_cons in H as [H|H]; [discriminate H|]).
      apply elem_of_nil in H. exact H.
    - apply not_elem_of_nil. }
  split; [reflexivity|]. split; [reflexivity|]. split; [exact Hok|].
  rewrite (processResponse_stream _ Msp_new eq_refl eq_refl Hok).
  reflexivity.
Defined.

Lemma processResponse_payload_quiet (q : list Z) :
  forall m : Msp,
    state m = 5 ->
    Z.of_nat (messageLengthReceived m + length q) <= messageLengthExpected m ->
    (processResponse m q).2 = []
    /\ (4 < state (processResponse m q).1).
Proof.
  induction q as [|char q IH]; intros m Hst Hlen; [cbn; split; [done|lia]|].
  destruct m as [cc st buf chk exp rcv c0].
  cbn [state messageLengthReceived messageLengthExpected] in *. subst st.
  cbn [processResponse]. unfold processChar.
  cbn [state messageBuffer messageChecksum messageLengthExpected
       messageLengthReceived command commandCount]. stage_arith.
  destruct (Z.leb_spec exp (Z.of_nat (S rcv))) as [Hle|Hlt].
  - assert (q = []) as -> by (destruct q; [reflexivity|cbn in Hlen; lia]).
    cbn. split; [reflexivity|lia].
  - match goal with
    | |- context [processResponse ?m1 q] =>
        destruct (IH m1 eq_refl) as [He Hs];
          [cbn [messageLengthReceived messageLengthExpected length] in *; lia|];
          destruct (processResponse m1 q) as [m2 e2]
    end.
    cbn in *. subst e2. split; [reflexivity|exact Hs].
Qed.

(** No frame is emitted before its last byte has arrived: a proper
    prefix of a valid response, fed to a cleared parser, makes no call at
    all. *)
Theorem processResponse_prefix_silent (m : Msp) (cmd : Z)
    (payload : list Z) (k : nat) :
  state m = 0 ->
  messageLengthReceived m = 0%nat ->
  0 <= cmd <= 255 ->
  Z.of_nat (length payload) <= 255 ->
  Forall JS.u8 payload ->
  (k < length (as_response (encodeV1 cmd payload)))%nat ->
  (processResponse m (take k (as_response (encodeV1 cmd payload)))).2 = [].
Proof.
  intros Hst Hrcv Hcmd Hlen Hp Hk.
  rewrite as_response_encodeV1 in * by assumption.
  set (hdr := [ascii "$"; ascii "M"; ascii ">";
               Z.of_nat (length payload); cmd]) in *.
  rewrite !length_app in Hk. cbn [length] in Hk.
  change (length hdr) with 5%nat in Hk.
  destruct (decide (k <= 5)%nat) as [Hk5|Hk5].
  - rewrite take_app_le by (cbn; lia).
    destruct m as [cc st buf chk exp rcv c0]. cbn in Hst. subst st.
    do 6 (destruct k as [|k]; [cbn; repeat (destruct (_ <? _)); reflexivity|]).
    lia.
  - rewrite take_app_ge by (cbn; lia).
    change (length hdr) with 5%nat.
    rewrite take_app_le by lia.
    rewrite processResponse_app.
    unfold hdr. rewrite processResponse_header by (auto; right; reflexivity).
    destruct payload as [|x payload]; [cbn in Hk; lia|].
    replace (0 <? Z.of_nat (length (x :: payload))) with true
      by (symmetry; apply Z.ltb_lt; cbn [length]; lia).
    match goal with
    | |- context [processResponse ?m1 (take ?j ?p)] =>
        destruct (processResponse_payload_quiet (take j p) m1 eq_refl)
          as [He _];
          [|destruct (processResponse m1 (take j p)) as [m2 e2]]
    end.
    + cbn [messageLengthReceived messageLengthExpected]. rewrite Hrcv.
      rewrite length_take. lia.
    + cbn in *. exact He.
Qed.

Lemma processResponse_prefix_silent_witness :
  let frame := as_response (encodeV1 5 [1; 2; 3]) in
  state Msp_new = 0 /\ messageLengthReceived Msp_new = 0%nat
  /\ 0 <= 5 <= 255 /\ Z.of_nat (length [1; 2; 3]) <= 255
  /\ Forall JS.u8 [1; 2; 3]
  /\ (8 < length frame)%nat
  /\ (processResponse Msp_new (take 8 frame)).2 = [].
Proof.
  intros frame.
  assert (Hc : 0 <= 5 <= 255) by lia.
  assert (Hl : Z.of_nat (length [1; 2; 3]) <= 255) by (cbn; lia).
  assert (Hd : Forall JS.u8 [1; 2; 3])
    by (repeat constructor; unfold JS.u8; lia).
  assert (Hk : (8 < length frame)%nat) by (vm_compute; lia).
  split; [reflexivity|]. split; [reflexivity|]. split; [exact Hc|].
  split; [exact Hl|]. split; [exact Hd|]. split; [exact Hk|].
  exact (processResponse_prefix_silent Msp_new 5 [1; 2; 3] 8
           eq_refl eq_refl Hc Hl Hd Hk).
Defined.

Lemma delivered_cons (r : ReadResult) (results : list ReadResult) :
  delivered (r :: results)
  = match r with ReadValue value => value | _ => [] end
    ++ delivered results.
Proof. destruct r; reflexivity. Qed.

(** Reads that end or fail between chunks do not disturb a frame in
    progress: a series of reads leaves the parser where the delivered
    bytes, fed at once, leave it, and emits the same frames; without a
    failed read it makes the very same calls. *)
Theorem reads_delivered (m : Msp) (results : list ReadResult) :
  (reads m results).1 = (processResponse m (delivered results)).1
  /\ frames (reads m results).2
     = frames (processResponse m (delivered results)).2
  /\ (ReadError ∉ results ->
      (reads m results).2 = (processResponse m (delivered results)).2).
Proof.
  revert m. induction results as [|r results IH]; intros m.
  - cbn. repeat split.
  - rewrite delivered_cons. cbn [reads].
    destruct r as [value| |]; cbn [read app].
    + rewrite processResponse_app.
      destruct (processResponse m value) as [m1 e1].
      destruct (IH m1) as (S1 & F1 & E1).
      destruct (reads m1 results) as [m2 e2].
      destruct (processResponse m1 (delivered results)) as [m3 e3].
      cbn [fst snd] in *. subst m3. rewrite !frames_app, F1.
      split; [reflexivity|]. split; [reflexivity|].
      intros Hn. rewrite E1; [reflexivity|].
      intros H. apply Hn. apply elem_of_cons. right. exact H.
    + destruct (IH m) as (S0 & F0 & E0).
      destruct (reads m results) as [m2 e2]. cbn [fst snd app] in *.
      split; [exact S0|]. split; [exact F0|].
      intros Hn. apply E0. intros H. apply Hn, elem_of_cons. right. exact H.
    + destruct (IH m) as (S0 & F0 & E0).
      destruct (reads m results) as [m2 e2]. cbn [fst snd app] in *.
      split; [exact S0|]. split; [exact F0|].
      intros Hn. exfalso. apply Hn, elem_of_cons. left. reflexivity.
Qed.

(** The parser has no stage for the V2 marker 'X': a V2 frame whose
    bytes after the marker hold no '$' leaves it untouched and emits
    nothing, whichever direction byte it carries. *)
Theorem processResponse_ignores_v2 (m : Msp) (command : Z) (data : list Z) :
  state m = 0 ->
  ascii "$" ∉ drop 3 (encodeV2 command data) ->
  processResponse m (encodeV2 command data) = (m, [])
  /\ processResponse m (as_response (encodeV2 command data)) = (m, []).
Proof.
  intros Hst Hn. rewrite encodeV2_closed in *.
  cbn [app drop] in Hn. unfold as_response. cbn [app insert list_insert].
  assert (Hhead : forall dir rest,
            dir <> ascii "$" -> ascii "$" ∉ rest ->
            processResponse m (36 :: 88 :: dir :: rest) = (m, [])).
  { intros dir rest Hd Hr. destruct m as [cc st buf chk exp rcv c0].
    cbn in Hst. subst st.
    change (36 :: 88 :: dir :: rest) with ([36; 88] ++ dir :: rest).
    rewrite processResponse_app.
    set (m0 := {| commandCount := cc; state := 0; messageBuffer := buf;
                  messageChecksum := chk; messageLengthExpected := exp;
                  messageLengthReceived := rcv; command := c0 |}).
    assert (H2 : processResponse m0 [36; 88] = (m0, [])) by reflexivity.
    rewrite H2.
    rewrite processResponse_noise; [reflexivity|reflexivity|].
    apply not_elem_of_cons. split; [congruence|exact Hr]. }
  split; apply Hhead; try exact Hn; discriminate.
Qed.

Lemma processResponse_ignores_v2_witness :
  state Msp_new = 0
  /\ (ascii "$" ∉ drop 3 (encodeV2 (code MSP2_SEND_DSHOT_COMMAND) [1; 2]))
  /\ processResponse Msp_new
       (as_response (encodeV2 (code MSP2_SEND_DSHOT_COMMAND) [1; 2]))
     = (Msp_new, []).
Proof.
  assert (Hn : ascii "$"
               ∉ drop 3 (encodeV2 (code MSP2_SEND_DSHOT_COMMAND) [1; 2])).
  { vm_compute. intros H.
    repeat (apply elem_of_cons in H as [H|H]; [discriminate H|]).
    apply elem_of_nil in H. exact H. }
  split; [reflexivity|]. split; [exact Hn|].
  exact (proj2 (processResponse_ignores_v2 Msp_new _ _ eq_refl Hn)).
Defined.

Lemma corrupted_payload_dropped_witness :
  0 <= 5 <= 255 /\ Z.of_nat (length [1; 2; 3]) <= 255
  /\ Forall JS.u8 [1; 2; 3]
  /\ 0 <= 4 <= 255 /\ Z.of_nat (length [9; 8]) <= 255
  /\ Forall JS.u8 [9; 8]
  /\ [1; 2; 3] !! 1%nat = Some 2 /\ JS.u8 7 /\ 7 <> 2
  /\ frames (processResponse (clear_scratch Msp_new)
               (<[(5 + 1)%nat := 7]> (as_response (encodeV1 5 [1; 2; 3]))
                ++ as_response (encodeV1 4 [9; 8]))).2
     = [{| commandName := Some 4; data := [9; 8] |}].
Proof.
  assert (Hc1 : 0 <= 5 <= 255) by lia.
  assert (Hl1 : Z.of_nat (length [1; 2; 3]) <= 255) by (cbn; lia).
  assert (Hd1 : Forall JS.u8 [1; 2; 3])
    by (repeat constructor; unfold JS.u8; lia).
  assert (Hc2 : 0 <= 4 <= 255) by lia.
  assert (Hl2 : Z.of_nat (length [9; 8]) <= 255) by (cbn; lia).
  assert (Hd2 : Forall JS.u8 [9; 8])
    by (repeat constructor; unfold JS.u8; lia).
  assert (Hi : [1; 2; 3] !! 1%nat = Some 2) by reflexivity.
  assert (Hb : JS.u8 7) by (unfold JS.u8; lia).
  assert (Hne : 7 <> 2) by discriminate.
  repeat (split; [assumption|]).
  rewrite (corrupted_payload_dropped Msp_new 5 4 [1; 2; 3] [9; 8] 1 2 7
             Hc1 Hl1 Hd1 Hc2 Hl2 Hd2 Hi Hb Hne).
  reflexivity.
Defined.

(** ** Sending *)

(** [send] raises the in-flight counter by one and changes nothing
    else, also when the write fails; it returns what the transport
    answered, or [null] after logging the failure.  The valid response
    that follows brings the counter back to where it was. *)
Theorem send_accounting {WriteResult : Type} (m : Msp) (cmd : Z)
    (request : option (list Z)) (response : list Z)
    (written : option WriteResult) :
  state m = 0 ->
  messageLengthReceived m = 0%nat ->
  0 <= cmd <= 255 ->
  Z.of_nat (length response) <= 255 ->
  Forall JS.u8 response ->
  let '(m1, effects, result) := send m cmd request written in
  m1 = with_commandCount (commandCount m + 1) m
  /\ result = written
  /\ errors effects
     = match written with Some _ => [] | None => [CommandFailed] end
  /\ (processResponse m1 (as_response (encodeV1 cmd response))).1
     = clear_scratch m.
Proof.
  intros Hst Hrcv Hcmd Hlen Hp. unfold send.
  assert (Hback :
    (processResponse (with_commandCount (commandCount m + 1) m)
       (as_response (encodeV1 cmd response))).1 = clear_scratch m).
  { rewrite processResponse_valid by assumption. cbn [fst].
    unfold clear_scratch, with_commandCount. cbn [commandCount].
    f_equal. lia. }
  destruct written as [result|]; repeat split; exact Hback.
Qed.

Lemma send_accounting_witness :
  state Msp_new = 0 /\ messageLengthReceived Msp_new = 0%nat
  /\ 0 <= 1 <= 255 /\ Z.of_nat (length [3; 4]) <= 255
  /\ Forall JS.u8 [3; 4]
  /\ (processResponse (send Msp_new 1 None (@None unit)).1.1
        (as_response (encodeV1 1 [3; 4]))).1 = clear_scratch Msp_new.
Proof.
  assert (Hc : 0 <= 1 <= 255) by lia.
  assert (Hl : Z.of_nat (length [3; 4]) <= 255) by (cbn; lia).
  assert (Hd : Forall JS.u8 [3; 4])
    by (repeat constructor; unfold JS.u8; lia).
  split; [reflexivity|]. split; [reflexivity|]. split; [exact Hc|].
  split; [exact Hl|]. split; [exact Hd|].
  pose proof (send_accounting Msp_new 1 None [3; 4] (@None unit)
                eq_refl eq_refl Hc Hl Hd) as H.
  destruct (send Msp_new 1 None (@None unit)) as [[m1 effects] result].
  exact (proj2 (proj2 (proj2 H))).
Defined.

(** ** The command catalog on the wire *)

Lemma frames_elem (f : McuCommand) (effects : list Effect) :
  AddCommand f ∈ effects <-> f ∈ frames effects.
Proof.
  unfold frames. rewrite list_elem_of_omap. split.
  - intros H. exists (AddCommand f). auto.
  - intros (e & He & Hf). destruct e; try discriminate.
    injection Hf as ->. exact He.
Qed.

(** The parser never emits a frame for a command code that is not a
    byte. *)
Lemma processResponse_byte_commands (m : Msp) (bytes : list Z) (cmd : Z)
    (f : McuCommand) :
  parser_ok m -> Forall JS.u8 bytes -> ~ JS.u8 cmd ->
  f ∈ frames (processResponse m bytes).2 -> commandName f <> Some cmd.
Proof.
  intros Hok Hb Hcmd Hin.
  destruct (processResponse_invariant m bytes Hok Hb) as [_ Hf].
  rewrite Forall_forall in Hf.
  destruct (Hf f Hin) as ((c & Hc & Hu) & _).
  rewrite Hc. intros [= ->]. contradiction.
Qed.

(** Every command of the catalog but [MSP2_SEND_DSHOT_COMMAND] has a
    code from 1 to 254 and is sent as a V1 frame;
    [MSP2_SEND_DSHOT_COMMAND] is sent as a V2 frame, and no frame that
    the parser emits carries its code.  [MSP_MOTOR_3D_CONFIG] and
    [MSP_3D] are two names of one code. *)
Theorem catalog_on_the_wire {WriteResult : Type} (c : MSP_COMMANDS)
    (m parser : Msp) (data : option (list Z))
    (written : option WriteResult) (bytes : list Z) :
  parser_ok parser -> Forall JS.u8 bytes ->
  (c <> MSP2_SEND_DSHOT_COMMAND ->
   1 <= code c <= 254
   /\ (send m (code c) data written).1.2 !! 0%nat
      = Some (SerialWrite (encodeV1 (code c) (default [] data))))
  /\ (send m (code MSP2_SEND_DSHOT_COMMAND) data written).1.2 !! 0%nat
     = Some (SerialWrite
               (encodeV2 (code MSP2_SEND_DSHOT_COMMAND) (default [] data)))
  /\ (forall f, f ∈ frames (processResponse parser bytes).2 ->
      commandName f <> Some (code MSP2_SEND_DSHOT_COMMAND))
  /\ code MSP_MOTOR_3D_CONFIG = code MSP_3D.
Proof.
  intros Hok Hb. split; [|split; [|split]].
  - intros Hc. destruct c; try contradiction;
      (split; [cbn; lia|]); unfold send; destruct written; reflexivity.
  - unfold send. destruct written; reflexivity.
  - intros f Hf.
    apply (processResponse_byte_commands parser bytes _ f Hok Hb);
      [|exact Hf].
    cbn. unfold JS.u8. lia.
  - reflexivity.
Qed.

Lemma catalog_on_the_wire_witness :
  parser_ok Msp_new /\ Forall JS.u8 [36; 77; 62; 0; 3; 3]
  /\ (forall f,
        f ∈ frames (processResponse Msp_new [36; 77; 62; 0; 3; 3]).2 ->
        commandName f <> Some (code MSP2_SEND_DSHOT_COMMAND)).
Proof.
  assert (Hb : Forall JS.u8 [36; 77; 62; 0; 3; 3])
    by (repeat constructor; unfold JS.u8; lia).
  split; [exact parser_ok_new|]. split; [exact Hb|].
  exact (proj1 (proj2 (proj2
           (catalog_on_the_wire (WriteResult := unit) MSP_UID Msp_new
              Msp_new None None _ parser_ok_new Hb)))).
Defined.

(** ** Correlated sends on the receive path *)

Lemma perform_frame (e : Effect) (w : World) :
  clock (perform e w) = clock w /\ codec (perform e w) = codec w.
Proof.
  destruct e as [b|msg|f]; cbn; [done|done|]. apply addCommand_frame.
Qed.

Lemma perform_all_frame (effects : list Effect) (w : World) :
  clock (perform_all effects w) = clock w
  /\ codec (perform_all effects w) = codec w.
Proof.
  revert w. induction effects as [|e effects IH]; intros w; [done|].
  change (perform_all (e :: effects) w)
    with (perform_all effects (perform e w)).
  destruct (IH (perform e w)) as [-> ->]. apply perform_frame.
Qed.

Lemma perform_all_armed (p t : nat) (d cmd : Z) (effects : list Effect)
    (w : World) :
  (forall f, f ∈ frames effects -> commandName f <> Some cmd) ->
  armed p t d cmd w -> armed p t d cmd (perform_all effects w).
Proof.
  revert w. induction effects as [|e effects IH]; intros w Hf Ha; [exact Ha|].
  change (perform_all (e :: effects) w)
    with (perform_all effects (perform e w)).
  apply IH.
  - intros f H. apply Hf. apply frames_elem, elem_of_cons. right.
    apply frames_elem, H.
  - destruct e as [b|msg|f]; cbn [perform].
    + revert Ha. apply armed_keep; auto.
    + revert Ha. apply armed_keep; auto.
    + apply armed_addCommand_other; [|exact Ha].
      apply Hf, frames_elem, elem_of_cons. left. reflexivity.
Qed.

Lemma perform_all_settled_once (p : nat) (s : Settlement) (at_ : Z)
    (effects : list Effect) (w : World) :
  settled_once p s at_ w -> settled_once p s at_ (perform_all effects w).
Proof.
  revert w. induction effects as [|e effects IH]; intros w Hd; [exact Hd|].
  change (perform_all (e :: effects) w)
    with (perform_all effects (perform e w)).
  apply IH. destruct e as [b|msg|f]; cbn [perform].
  - revert Hd. apply settled_once_same; auto.
  - revert Hd. apply settled_once_same; auto.
  - apply settled_once_addCommand, Hd.
Qed.

Lemma sendWithPromise_codec (w : World) (command : Z)
    (data : option (list Z)) (written : option unit) :
  codec (sendWithPromise w command data written).1
  = with_commandCount (commandCount (codec w) + 1) (codec w).
Proof. destruct written as [[]|]; reflexivity. Qed.

Lemma parser_ok_with_commandCount (c : Z) (m : Msp) :
  parser_ok m -> parser_ok (with_commandCount c m).
Proof. destruct m. exact id. Qed.

(** A correlated send for a command code that is not a byte, such as
    [MSP2_SEND_DSHOT_COMMAND], cannot be answered through the receive
    path: whatever bytes arrive, the promise stays unsettled for 200 ms
    and is then rejected by the timeout. *)
Theorem wide_command_times_out (w0 : World) (cmd : Z)
    (payload : option (list Z)) (written : option unit)
    (inbound : list Inbound) :
  well_formed w0 ->
  parser_ok (codec w0) ->
  ~ JS.u8 cmd ->
  byte_chunks inbound ->
  let '(w1, p) := sendWithPromise w0 cmd payload written in
  let deadline := clock w0 + 200 in
  let w2 := drive w1 inbound in
  (clock w2 < deadline ->
     promises w2 !! p = Some None /\ settlements p w2 = [])
  /\ (deadline <= clock w2 -> settled_once p TimeoutError deadline w2).
Proof.
  intros Hwf Hok Hcmd Hin.
  pose proof (sendWithPromise_pending w0 cmd payload written Hwf) as H.
  pose proof (sendWithPromise_codec w0 cmd payload written) as Hcodec.
  destruct (sendWithPromise w0 cmd payload written) as [w1 p].
  destruct H as (-> & Hclk & Hpend & _). cbn [fst] in Hcodec. cbv zeta.
  set (t := length (timers w0)) in *. set (d := clock w0 + 200) in *.
  set (p := length (promises w0)) in *.
  assert (Hok1 : parser_ok (codec w1))
    by (rewrite Hcodec; apply parser_ok_with_commandCount, Hok).
  clear Hcodec Hclk Hok Hwf.
  assert (Hinv : forall w,
    parser_ok (codec w) ->
    (clock w < d /\ pending p t d cmd w)
    \/ (d <= clock w /\ settled_once p TimeoutError d w) ->
    parser_ok (codec (drive w inbound))
    /\ ((clock (drive w inbound) < d /\ pending p t d cmd (drive w inbound))
        \/ (d <= clock (drive w inbound)
            /\ settled_once p TimeoutError d (drive w inbound)))).
  { induction Hin as [|i inbound Hi _ IH]; intros w Hokw Hw; [auto|].
    cbn [drive fold_left]. apply IH; destruct i as [|bytes]; cbn [arrive].
    - destruct (tick_frame w) as (_ & _ & _ & _ & ->). exact Hokw.
    - unfold receive, read.
      destruct (processResponse_invariant (codec w) bytes Hokw Hi)
        as [Hok' _].
      destruct (processResponse (codec w) bytes) as [m' effects].
      destruct (perform_all_frame effects (with_codec m' w)) as [_ ->].
      exact Hok'.
    - destruct (tick_frame w) as (Hc & _).
      destruct Hw as [[Hlt Hp]|[Hge Hd]].
      + destruct (Z.lt_ge_cases (clock w + 1) d) as [Hlt'|Hge'].
        * left. split; [lia|]. apply tick_pending; assumption.
        * right. split; [lia|]. apply (tick_due p t d cmd); [exact Hp|lia].
      + right. split; [lia|]. apply tick_settled_once, Hd.
    - unfold receive, read.
      pose proof (fun f => processResponse_byte_commands (codec w) bytes cmd f
                             Hokw Hi Hcmd) as Hf.
      destruct (processResponse (codec w) bytes) as [m' effects].
      cbn [snd] in Hf.
      destruct (perform_all_frame effects (with_codec m' w)) as [Hc _].
      rewrite Hc. cbn [clock with_codec].
      destruct Hw as [[Hlt [Ha _]]|[Hge Hd]].
      + left. split; [exact Hlt|]. split; [|rewrite Hc; exact Hlt].
        apply perform_all_armed; [exact Hf|].
        revert Ha. apply armed_keep; auto.
      + right. split; [exact Hge|].
        apply perform_all_settled_once.
        revert Hd. apply settled_once_same; auto. }
  destruct (Hinv w1 Hok1) as [_ [[Hlt [Ha _]]|[Hge Hd]]].
  - left. split; [exact (proj2 Hpend)|exact Hpend].
  - split; [intros _|intros; lia].
    split; [exact (ar_promise _ _ _ _ _ Ha)|exact (ar_settled _ _ _ _ _ Ha)].
  - split; [intros; lia|intros _; exact Hd].
Qed.

Lemma wide_command_times_out_witness :
  let inbound :=
    replicate 100 Elapse
    ++ [Chunk (as_response (encodeV1 3 [48]))]
    ++ replicate 100 Elapse in
  let w1 :=
    (sendWithPromise World_new (code MSP2_SEND_DSHOT_COMMAND) None
       (Some tt)).1 in
  well_formed World_new /\ parser_ok (codec World_new)
  /\ ~ JS.u8 (code MSP2_SEND_DSHOT_COMMAND)
  /\ byte_chunks inbound
  /\ settled_once 0 TimeoutError 200 (drive w1 inbound).
Proof.
  intros inbound w1.
  assert (Hc : ~ JS.u8 (code MSP2_SEND_DSHOT_COMMAND))
    by (cbn; unfold JS.u8; lia).
  assert (Hb : byte_chunks inbound).
  { unfold byte_chunks, inbound. apply Forall_app. split.
    - apply Forall_replicate. exact I.
    - apply Forall_app. split; [|apply Forall_replicate; exact I].
      constructor; [|constructor].
      vm_compute. repeat constructor; discriminate. }
  split; [exact well_formed_new|]. split; [exact parser_ok_new|].
  split; [exact Hc|]. split; [exact Hb|].
  pose proof (wide_command_times_out World_new
                (code MSP2_SEND_DSHOT_COMMAND) None (Some tt) inbound
                well_formed_new parser_ok_new Hc Hb) as H.
  cbn [sendWithPromise] in H. destruct H as [_ H].
  apply H. vm_compute. discriminate.
Defined.

Lemma drive_elapse (k : nat) (w : World) :
  drive w (replicate k Elapse) = run w (replicate k Tick).
Proof.
  revert w. induction k as [|k IH]; intros w; [reflexivity|].
  cbn. apply IH.
Qed.

Lemma ticks_frame (k : nat) (w : World) :
  clock (run w (replicate k Tick)) = clock w + Z.of_nat k
  /\ codec (run w (replicate k Tick)) = codec w.
Proof.
  revert w. induction k as [|k IH]; intros w; [cbn; split; [lia|done]|].
  cbn [replicate run fold_left step].
  destruct (IH (tick w)) as [Hc Hm]. unfold run in *.
  destruct (tick_frame w) as (Hc' & _ & _ & _ & Hm').
  rewrite Hc, Hm, Hc', Hm'. split; [lia|reflexivity].
Qed.

(** A request and its response through the whole stack: after
    [sendWithPromise] for a command with no older waiter, the bytes of
    the valid response, received less than 200 ms later by a parser that
    was at rest, settle the promise once with the payload, at the time
    they arrive; the parser is cleared and the in-flight counter is back
    at its value before the send. *)
Theorem request_response_round_trip (w0 : World) (cmd : Z)
    (request : option (list Z)) (response : list Z)
    (written : option unit) (k : nat) :
  well_formed w0 ->
  state (codec w0) = 0 ->
  messageLengthReceived (codec w0) = 0%nat ->
  first_waiter cmd w0 = None ->
  0 <= cmd <= 255 ->
  Z.of_nat (length response) <= 255 ->
  Forall JS.u8 response ->
  Z.of_nat k < 200 ->
  let '(w1, p) := sendWithPromise w0 cmd request written in
  let w2 :=
    drive w1 (replicate k Elapse
              ++ [Chunk (as_response (encodeV1 cmd response))]) in
  settled_once p (Fulfilled response) (clock w0 + Z.of_nat k) w2
  /\ codec w2 = clear_scratch (codec w0).
Proof.
  intros Hwf Hst Hrcv Hnone Hcmd Hlen Hresp Hk.
  pose proof (sendWithPromise_pending w0 cmd request written Hwf) as H.
  pose proof (sendWithPromise_codec w0 cmd request written) as Hcodec.
  destruct (sendWithPromise w0 cmd request written) as [w1 p].
  destruct H as (-> & Hclk & Hpend & Hfirst). specialize (Hfirst Hnone).
  cbn [fst] in Hcodec. cbv zeta.
  unfold drive. rewrite fold_left_app. fold (drive w1 (replicate k Elapse)).
  rewrite drive_elapse. cbn [fold_left arrive].
  assert (Hq : quiet cmd (replicate k Tick))
    by (apply Forall_replicate; exact I).
  destruct (ticks_frame k w1) as [Hc2 Hm2].
  pose proof (first_waiter_run cmd _ _ w1 Hfirst Hq) as Hf2.
  destruct (run_quiet _ _ _ _ (replicate k Tick) w1 Hpend Hq)
    as [[_ [Ha _]]|[Hge _]]; [|lia].
  set (w2 := run w1 (replicate k Tick)) in *.
  rewrite receive_response
    by (rewrite ?Hm2, ?Hcodec; assumption).
  set (m3 := clear_scratch
               (with_commandCount (commandCount (codec w2) - 1) (codec w2))).
  assert (Ha3 : armed (length (promises w0)) (length (timers w0))
                  (clock w0 + 200) cmd (with_codec m3 w2))
    by (revert Ha; apply armed_keep; auto).
  destruct (armed_addCommand_match _ _ _ _
              {| commandName := Some cmd; data := response |}
              (with_codec m3 w2) eq_refl Hf2 Ha3) as [Hd _].
  split.
  - cbn [data clock with_codec] in Hd. rewrite Hc2, Hclk in Hd. exact Hd.
  - destruct (addCommand_frame
                {| commandName := Some cmd; data := response |}
                (with_codec m3 w2)) as [_ ->].
    cbn [codec with_codec]. unfold m3. rewrite Hm2, Hcodec.
    unfold clear_scratch, with_commandCount. cbn [commandCount].
    f_equal. lia.
Qed.

Lemma request_response_round_trip_witness :
  let w1 := (sendWithPromise World_new 1 None (Some tt)).1 in
  well_formed World_new
  /\ state (codec World_new) = 0
  /\ messageLengthReceived (codec World_new) = 0%nat
  /\ first_waiter 1 World_new = None
  /\ 0 <= 1 <= 255 /\ Z.of_nat (length [0; 1; 45]) <= 255
  /\ Forall JS.u8 [0; 1; 45]
  /\ Z.of_nat 3 < 200
  /\ settled_once 0 (Fulfilled [0; 1; 45]) 3
       (drive w1 (replicate 3 Elapse
                  ++ [Chunk (as_response (encodeV1 1 [0; 1; 45]))])).
Proof.
  intros w1.
  assert (Hc : 0 <= 1 <= 255) by lia.
  assert (Hl : Z.of_nat (length [0; 1; 45]) <= 255) by (cbn; lia).
  assert (Hd : Forall JS.u8 [0; 1; 45])
    by (repeat constructor; unfold JS.u8; lia).
  assert (Hk : Z.of_nat 3 < 200) by lia.
  split; [exact well_formed_new|]. split; [reflexivity|].
  split; [reflexivity|]. split; [reflexivity|]. split; [exact Hc|].
  split; [exact Hl|]. split; [exact Hd|]. split; [exact Hk|].
  pose proof (request_response_round_trip World_new 1 None [0; 1; 45]
                (Some tt) 3 well_formed_new eq_refl eq_refl eq_refl
                Hc Hl Hd Hk) as H.
  cbn [sendWithPromise] in H. exact (proj1 H).
Defined.

(** A request that timed out keeps its place in the queue: it is still
    the oldest waiter of its command, and the next frame for the command
    is handed to it and settles nothing. *)
Theorem timed_out_request_takes_frame (w0 : World) (cmd : Z)
    (payload : option (list Z)) (written : option unit)
    (before : list Event) (frame : McuCommand) :
  well_formed w0 ->
  first_waiter cmd w0 = None ->
  quiet cmd before ->
  commandName frame = Some cmd ->
  let '(w1, p) := sendWithPromise w0 cmd payload written in
  let w2 := run w1 before in
  clock w0 + 200 <= clock w2 ->
  first_waiter cmd w2 = Some (mkCallback (length (timers w0)) p)
  /\ promises (addCommand frame w2) = promises w2
  /\ settled (addCommand frame w2) = settled w2
  /\ length (queue (addCommand frame w2)) = (length (queue w2) - 1)%nat.
Proof.
  intros Hwf Hnone Hq Hname.
  pose proof (sendWithPromise_pending w0 cmd payload written Hwf) as H.
  destruct (sendWithPromise w0 cmd payload written) as [w1 p].
  destruct H as (-> & Hclk & Hpend & Hfirst). specialize (Hfirst Hnone).
  cbv zeta. intros Hlate.
  pose proof (first_waiter_run cmd _ before w1 Hfirst Hq) as Hf2.
  destruct (run_quiet _ _ _ _ before w1 Hpend Hq) as [[Hlt _]|[_ Hd]];
    [lia|].
  split; [exact Hf2|].
  unfold addCommand. unfold first_waiter in Hf2. rewrite Hname.
  destruct (pop_waiter (Some cmd) (queue (run w1 before)))
    as [[cb q']|] eqn:Hpop; [|discriminate].
  cbn in Hf2. injection Hf2 as Hcb. subst cb. unfold invoke.
  cbn [cb_promise cb_timeout].
  rewrite (settle_settled _ _ TimeoutError)
    by (exact (dn_promise _ _ _ _ Hd)).
  cbn [promises settled queue clearTimeout with_timers with_queue].
  split; [reflexivity|]. split; [reflexivity|].
  clear -Hpop. revert q' Hpop.
  induction (queue (run w1 before)) as [|[c cb] q IH]; intros q' Hpop;
    [discriminate|].
  cbn in Hpop. destruct (decide (Some cmd = Some c)).
  - injection Hpop as _ <-. cbn. lia.
  - destruct (pop_waiter (Some cmd) q) as [[cb1 q1]|] eqn:Hq1;
      [|discriminate].
    injection Hpop as -> <-. specialize (IH q1 eq_refl). cbn.
    destruct q as [|x q]; [discriminate|]. cbn in *. lia.
Qed.

Lemma timed_out_request_takes_frame_witness :
  let frame := {| commandName := Some 1; data := [7] |} in
  let w2 :=
    run (sendWithPromise World_new 1 None (Some tt)).1
      (replicate 200 Tick) in
  well_formed World_new /\ first_waiter 1 World_new = None
  /\ quiet 1 (replicate 200 Tick) /\ commandName frame = Some 1
  /\ clock World_new + 200 <= clock w2
  /\ promises (addCommand frame w2) = promises w2.
Proof.
  intros frame w2.
  assert (Hq : quiet 1 (replicate 200 Tick))
    by (apply Forall_replicate; exact I).
  assert (Hl : clock World_new + 200 <= clock w2)
    by (vm_compute; discriminate).
  split; [exact well_formed_new|]. split; [reflexivity|].
  split; [exact Hq|]. split; [reflexivity|]. split; [exact Hl|].
  pose proof (timed_out_request_takes_frame World_new 1 None (Some tt)
                (replicate 200 Tick) frame well_formed_new eq_refl Hq
                eq_refl) as H.
  cbn [sendWithPromise] in H. exact (proj1 (proj2 (H Hl))).
Defined.

(** ** Bytes behind a header *)

(** Once a header is read the parser takes the announced number of
    bytes as payload, whatever they are: as long as no more bytes than
    announced follow the header nothing is emitted, also when these
    bytes hold a complete valid frame. *)
Theorem processResponse_header_swallows (m : Msp) (dir len cmd : Z)
    (bytes : list Z) :
  state m = 0 ->
  messageLengthReceived m = 0%nat ->
  dir = ascii "<" \/ dir = ascii ">" ->
  Z.of_nat (length bytes) <= len ->
  (processResponse m ([ascii "$"; ascii "M"; dir; len; cmd] ++ bytes)).2
  = [].
Proof.
  intros Hst Hrcv Hdir Hlen.
  rewrite processResponse_app, (processResponse_header m dir len cmd Hst Hdir).
  destruct bytes as [|x bytes]; [cbn; reflexivity|].
  replace (0 <? len) with true
    by (symmetry; apply Z.ltb_lt; cbn [length] in Hlen; lia).
  match goal with
  | |- context [processResponse ?m1 (x :: bytes)] =>
      destruct (processResponse_payload_quiet (x :: bytes) m1 eq_refl)
        as [He _];
        [|destruct (processResponse m1 (x :: bytes)) as [m2 e2]]
  end.
  - cbn [messageLengthReceived messageLengthExpected]. rewrite Hrcv. lia.
  - cbn in *. exact He.
Qed.

Lemma processResponse_header_swallows_witness :
  let inner := as_response (encodeV1 5 [1; 2; 3]) in
  state Msp_new = 0 /\ messageLengthReceived Msp_new = 0%nat
  /\ (ascii ">" = ascii "<" \/ ascii ">" = ascii ">")
  /\ Z.of_nat (length inner) <= 9
  /\ (processResponse Msp_new
        ([ascii "$"; ascii "M"; ascii ">"; 9; 4] ++ inner)).2 = []
  /\ frames (processResponse Msp_new inner).2
     = [{| commandName := Some 5; data := [1; 2; 3] |}].
Proof.
  intros inner.
  assert (Hd : ascii ">" = ascii "<" \/ ascii ">" = ascii ">")
    by (right; reflexivity).
  assert (Hl : Z.of_nat (length inner) <= 9) by (vm_compute; discriminate).
  split; [reflexivity|]. split; [reflexivity|]. split; [exact Hd|].
  split; [exact Hl|]. split; [|reflexivity].
  exact (processResponse_header_swallows Msp_new (ascii ">") 9 4 inner
           eq_refl eq_refl Hd Hl).
Defined.

Lemma reads_delivered_witness :
  (ReadError ∉ [ReadValue [36; 77]; ReadDone; ReadValue [62; 0; 1; 1]])
  /\ (reads Msp_new
        [ReadValue [36; 77]; ReadDone; ReadValue [62; 0; 1; 1]]).2
     = (processResponse Msp_new [36; 77; 62; 0; 1; 1]).2.
Proof.
  assert (Hn : ReadError
               ∉ [ReadValue [36; 77]; ReadDone; ReadValue [62; 0; 1; 1]]).
  { intros H. repeat (apply elem_of_cons in H as [H|H]; [discriminate H|]).
    apply elem_of_nil in H. exact H. }
  split; [exact Hn|].
  exact (proj2 (proj2 (reads_delivered Msp_new _)) Hn).
Defined.

